(** * QR studio: the compositing pipeline of [QRGenerator.tsx]

    The component renders a QR symbol on an HTML canvas: it sizes the
    canvas, optionally paints a frame, clips and draws the symbol,
    optionally overlays a logo and a caption, and serialises the canvas.

    JavaScript numbers are read as real numbers (rounding is not
    modelled); strings are [string]; the 2D context is an explicit state
    threaded through the drawing procedures, together with the list of the
    drawing operations performed on the bitmap. *)

From Stdlib Require Import Reals Lra Psatz List Ascii String ZArith Bool.
From Stdlib Require DecimalString.
Import ListNotations.

Local Open Scope string_scope.
Local Open Scope list_scope.
Local Open Scope R_scope.

(* ================================================================== *)
(** * The 2D drawing context *)
(* ================================================================== *)

Module Canvas.

Definition point : Type := R * R.

(** The path-building calls of the context, in call order. *)
Inductive pathcmd : Type :=
| MoveTo (x y : R)
| LineTo (x y : R)
| ClosePath
| Rect (x y w h : R)
| RoundRect (x y w h r : R)
| Arc (x y r a0 a1 : R).

Definition path : Type := list pathcmd.

(** A fill or stroke style: a CSS colour or a linear gradient with its
    colour stops. *)
Inductive paint : Type :=
| Color (c : string)
| LinearGradient (x0 y0 x1 y1 : R) (stops : list (R * string)).

(** The [font] attribute, as the pair a CSS shorthand such as
    [16px Arial] denotes. *)
Record font : Type := { font_px : R; font_family : string }.

(** The part of the context that [save] pushes and [restore] pops. *)
Record drawstate : Type := {
  fillStyle : paint;
  strokeStyle : paint;
  lineWidth : R;
  shadowColor : string;
  shadowBlur : R;
  shadowOffsetX : R;
  shadowOffsetY : R;
  textFont : font;
  textAlign : string;
  clip : list path   (* the clip region is the intersection of these *)
}.

Definition default_state : drawstate := {|
  fillStyle := Color "#000000";
  strokeStyle := Color "#000000";
  lineWidth := 1;
  shadowColor := "rgba(0, 0, 0, 0)";
  shadowBlur := 0;
  shadowOffsetX := 0;
  shadowOffsetY := 0;
  textFont := {| font_px := 10; font_family := "sans-serif" |};
  textAlign := "start";
  clip := []
|}.

(** What a drawing call does to the bitmap. *)
Inductive drawkind : Type :=
| ClearRect (x y w h : R)
| FillRect (x y w h : R)
| StrokeRect (x y w h : R)
| Fill (p : path)
| Stroke (p : path)
| DrawImage (src : string) (x y w h : R)
| FillText (text : string) (x y : R).

(** A drawing operation as it happened: the call and the drawing state
    in force when it was made. *)
Record drawop : Type := { kind : drawkind; st : drawstate }.

Record ctx : Type := {
  cur : drawstate;
  saved : list drawstate;   (* the save/restore stack, top first *)
  cur_path : path;          (* the current path; not saved by [save] *)
  log : list drawop         (* operations on the bitmap, oldest first *)
}.

Definition initial_ctx : ctx :=
  {| cur := default_state; saved := []; cur_path := []; log := [] |}.

(** A context procedure returning nothing. *)
Definition cmd : Type := ctx -> ctx.

Definition skip : cmd := fun c => c.
Definition andThen (a b : cmd) : cmd := fun c => b (a c).

(** A conditional statement without an [else] branch. *)
Definition when (b : bool) (k : cmd) : cmd := if b then k else skip.

(** A loop over a list of integers. *)
Definition for_each (l : list nat) (body : nat -> cmd) : cmd :=
  fold_right (fun i k => andThen (body i) k) skip l.

Definition with_cur (f : drawstate -> drawstate) : cmd := fun c =>
  {| cur := f (cur c); saved := saved c; cur_path := cur_path c; log := log c |}.

Definition with_path (f : path -> path) : cmd := fun c =>
  {| cur := cur c; saved := saved c; cur_path := f (cur_path c); log := log c |}.

Definition draw (k : drawkind) : cmd := fun c =>
  {| cur := cur c; saved := saved c; cur_path := cur_path c;
     log := log c ++ [ {| kind := k; st := cur c |} ] |}.

(** ** Assignments to context attributes

    [st_a v] is the drawing state with attribute [a] set to [v];
    [set_a v] is the assignment [ctx.a = v]. *)

Definition st_fillStyle (p : paint) (s : drawstate) : drawstate :=
  {| fillStyle := p; strokeStyle := strokeStyle s; lineWidth := lineWidth s;
     shadowColor := shadowColor s; shadowBlur := shadowBlur s;
     shadowOffsetX := shadowOffsetX s; shadowOffsetY := shadowOffsetY s;
     textFont := textFont s; textAlign := textAlign s; clip := clip s |}.

Definition set_fillStyle (p : paint) : cmd := with_cur (st_fillStyle p).

Definition st_strokeStyle (p : paint) (s : drawstate) : drawstate :=
  {| fillStyle := fillStyle s; strokeStyle := p; lineWidth := lineWidth s;
     shadowColor := shadowColor s; shadowBlur := shadowBlur s;
     shadowOffsetX := shadowOffsetX s; shadowOffsetY := shadowOffsetY s;
     textFont := textFont s; textAlign := textAlign s; clip := clip s |}.

Definition set_strokeStyle (p : paint) : cmd := with_cur (st_strokeStyle p).

Definition st_lineWidth (w : R) (s : drawstate) : drawstate :=
  {| fillStyle := fillStyle s; strokeStyle := strokeStyle s; lineWidth := w;
     shadowColor := shadowColor s; shadowBlur := shadowBlur s;
     shadowOffsetX := shadowOffsetX s; shadowOffsetY := shadowOffsetY s;
     textFont := textFont s; textAlign := textAlign s; clip := clip s |}.

Definition set_lineWidth (w : R) : cmd := with_cur (st_lineWidth w).

Definition st_shadowColor (v : string) (s : drawstate) : drawstate :=
  {| fillStyle := fillStyle s; strokeStyle := strokeStyle s;
     lineWidth := lineWidth s;
     shadowColor := v; shadowBlur := shadowBlur s;
     shadowOffsetX := shadowOffsetX s; shadowOffsetY := shadowOffsetY s;
     textFont := textFont s; textAlign := textAlign s; clip := clip s |}.

Definition set_shadowColor (v : string) : cmd := with_cur (st_shadowColor v).

Definition st_shadowBlur (v : R) (s : drawstate) : drawstate :=
  {| fillStyle := fillStyle s; strokeStyle := strokeStyle s;
     lineWidth := lineWidth s;
     shadowColor := shadowColor s; shadowBlur := v;
     shadowOffsetX := shadowOffsetX s; shadowOffsetY := shadowOffsetY s;
     textFont := textFont s; textAlign := textAlign s; clip := clip s |}.

Definition set_shadowBlur (v : R) : cmd := with_cur (st_shadowBlur v).

Definition st_shadowOffsetX (v : R) (s : drawstate) : drawstate :=
  {| fillStyle := fillStyle s; strokeStyle := strokeStyle s;
     lineWidth := lineWidth s;
     shadowColor := shadowColor s; shadowBlur := shadowBlur s;
     shadowOffsetX := v; shadowOffsetY := shadowOffsetY s;
     textFont := textFont s; textAlign := textAlign s; clip := clip s |}.

Definition set_shadowOffsetX (v : R) : cmd := with_cur (st_shadowOffsetX v).

Definition st_shadowOffsetY (v : R) (s : drawstate) : drawstate :=
  {| fillStyle := fillStyle s; strokeStyle := strokeStyle s;
     lineWidth := lineWidth s;
     shadowColor := shadowColor s; shadowBlur := shadowBlur s;
     shadowOffsetX := shadowOffsetX s; shadowOffsetY := v;
     textFont := textFont s; textAlign := textAlign s; clip := clip s |}.

Definition set_shadowOffsetY (v : R) : cmd := with_cur (st_shadowOffsetY v).

Definition st_font (f : font) (s : drawstate) : drawstate :=
  {| fillStyle := fillStyle s; strokeStyle := strokeStyle s;
     lineWidth := lineWidth s;
     shadowColor := shadowColor s; shadowBlur := shadowBlur s;
     shadowOffsetX := shadowOffsetX s; shadowOffsetY := shadowOffsetY s;
     textFont := f; textAlign := textAlign s; clip := clip s |}.

Definition set_font (f : font) : cmd := with_cur (st_font f).

Definition st_textAlign (a : string) (s : drawstate) : drawstate :=
  {| fillStyle := fillStyle s; strokeStyle := strokeStyle s;
     lineWidth := lineWidth s;
     shadowColor := shadowColor s; shadowBlur := shadowBlur s;
     shadowOffsetX := shadowOffsetX s; shadowOffsetY := shadowOffsetY s;
     textFont := textFont s; textAlign := a; clip := clip s |}.

Definition set_textAlign (a : string) : cmd := with_cur (st_textAlign a).

Definition add_clip (p : path) (s : drawstate) : drawstate :=
  {| fillStyle := fillStyle s; strokeStyle := strokeStyle s;
     lineWidth := lineWidth s;
     shadowColor := shadowColor s; shadowBlur := shadowBlur s;
     shadowOffsetX := shadowOffsetX s; shadowOffsetY := shadowOffsetY s;
     textFont := textFont s; textAlign := textAlign s;
     clip := p :: clip s |}.

(** ** Methods of the context *)

(** [save] pushes a copy of the drawing state. *)
Definition save : cmd := fun c =>
  {| cur := cur c; saved := cur c :: saved c;
     cur_path := cur_path c; log := log c |}.

(** [restore] pops the stack into the drawing state, and does nothing
    on an empty stack. *)
Definition restore : cmd := fun c =>
  match saved c with
  | [] => c
  | s :: rest =>
      {| cur := s; saved := rest; cur_path := cur_path c; log := log c |}
  end.

Definition beginPath : cmd := with_path (fun _ => []).
Definition moveTo (x y : R) : cmd := with_path (fun p => p ++ [MoveTo x y]).
Definition lineTo (x y : R) : cmd := with_path (fun p => p ++ [LineTo x y]).
Definition closePath : cmd := with_path (fun p => p ++ [ClosePath]).
Definition rect (x y w h : R) : cmd :=
  with_path (fun p => p ++ [Rect x y w h]).
Definition roundRect (x y w h r : R) : cmd :=
  with_path (fun p => p ++ [RoundRect x y w h r]).
Definition arc (x y r a0 a1 : R) : cmd :=
  with_path (fun p => p ++ [Arc x y r a0 a1]).

(** [clip] intersects the clip region with the current path. *)
Definition clip_ : cmd := fun c => with_cur (add_clip (cur_path c)) c.

Definition clearRect (x y w h : R) : cmd := draw (ClearRect x y w h).
Definition fillRect (x y w h : R) : cmd := draw (FillRect x y w h).
Definition strokeRect (x y w h : R) : cmd := draw (StrokeRect x y w h).
Definition fill : cmd := fun c => draw (Fill (cur_path c)) c.
Definition stroke : cmd := fun c => draw (Stroke (cur_path c)) c.
Definition drawImage (src : string) (x y w h : R) : cmd :=
  draw (DrawImage src x y w h).
Definition fillText (t : string) (x y : R) : cmd := draw (FillText t x y).

(** ** Loops over a numeric variable

    [for (let v = x; v <= bound; v += step) body(v)] and its downward
    twin.  The test is the loop's own; [fuel] only bounds the unfolding,
    and [trips] is the number of rounds the test allows. *)

Fixpoint for_up (fuel : nat) (x bound step : R) (body : R -> cmd) : cmd :=
  match fuel with
  | O => skip
  | S n =>
      if Rle_dec x bound
      then andThen (body x) (for_up n (x + step) bound step body)
      else skip
  end.

Fixpoint for_down (fuel : nat) (x bound step : R) (body : R -> cmd) : cmd :=
  match fuel with
  | O => skip
  | S n =>
      if Rge_dec x bound
      then andThen (body x) (for_down n (x - step) bound step body)
      else skip
  end.

(** The number of values [lo, lo + step, ...] that are at most [hi]. *)
Definition trips (lo hi step : R) : nat := Z.to_nat (up ((hi - lo) / step)).

End Canvas.

Import Canvas.

Notation "a ;; b" := (andThen a b) (at level 61, right associativity).

(* ================================================================== *)
(** * The component's data *)
(* ================================================================== *)

Inductive ErrorCorrectionLevel : Type := L | M | Q | H.

Inductive FrameType : Type :=
| FrameNone | FrameSimple | FrameRounded | FrameGradient | FrameNeon
| FrameVintage | FrameSpeechBubble | FrameWavy | FrameCardStyle.

Inductive Shape : Type :=
| ShapeSquare | ShapeRounded | ShapeCircle | ShapeHexagon.

Definition FrameType_eqb (a b : FrameType) : bool :=
  match a, b with
  | FrameNone, FrameNone | FrameSimple, FrameSimple
  | FrameRounded, FrameRounded | FrameGradient, FrameGradient
  | FrameNeon, FrameNeon | FrameVintage, FrameVintage
  | FrameSpeechBubble, FrameSpeechBubble | FrameWavy, FrameWavy
  | FrameCardStyle, FrameCardStyle => true
  | _, _ => false
  end.

Record QROptions : Type := {
  text : string;
  size : R;
  foregroundColor : string;
  backgroundColor : string;
  errorCorrectionLevel : ErrorCorrectionLevel;
  margin : R;
  frameType : FrameType;
  frameColor : string;
  shape : Shape;
  bottomText : string;
  bottomTextColor : string;
  bottomTextSize : R
}.

(** A string used as a condition: true unless empty. *)
Definition truthy (s : string) : bool :=
  match s with
  | EmptyString => false
  | String _ _ => true
  end.

(* ================================================================== *)
(** * [applyQRShape] and [drawFrame] *)
(* ================================================================== *)

Definition applyQRShape (options : QROptions) (x y size : R) : cmd :=
  save ;;
  beginPath ;;
  match shape options with
  | ShapeRounded =>
      let radius := size * 0.1 in
      roundRect x y size size radius
  | ShapeCircle =>
      arc (x + size / 2) (y + size / 2) (size / 2) 0 (2 * PI)
  | ShapeHexagon =>
      let centerX := x + size / 2 in
      let centerY := y + size / 2 in
      let hexRadius := size / 2 in
      moveTo (centerX + hexRadius) centerY ;;
      for_each (List.seq 1 6) (fun i =>
        let angle := (INR i * PI) / 3 in
        lineTo (centerX + hexRadius * cos angle)
               (centerY + hexRadius * sin angle)) ;;
      closePath
  | ShapeSquare =>
      rect x y size size
  end ;;
  clip_.

Definition drawFrame (options : QROptions) (frameSize : R) : cmd :=
  let padding := frameSize * 0.1 in
  let frameWidth := frameSize - padding * 2 in
  let frameHeight := frameSize - padding * 2 in
  save ;;
  match frameType options with
  | FrameSimple =>
      set_strokeStyle (Color (frameColor options)) ;;
      set_lineWidth 8 ;;
      strokeRect padding padding frameWidth frameHeight
  | FrameRounded =>
      let radius := 20 in
      set_strokeStyle (Color (frameColor options)) ;;
      set_lineWidth 8 ;;
      beginPath ;;
      roundRect padding padding frameWidth frameHeight radius ;;
      stroke
  | FrameGradient =>
      let gradient :=
        LinearGradient 0 0 frameSize frameSize
          [ (0, frameColor options);
            (0.5, backgroundColor options);
            (1, frameColor options) ] in
      set_strokeStyle gradient ;;
      set_lineWidth 12 ;;
      strokeRect padding padding frameWidth frameHeight
  | FrameNeon =>
      set_shadowColor (frameColor options) ;;
      set_shadowBlur 20 ;;
      set_strokeStyle (Color (frameColor options)) ;;
      set_lineWidth 4 ;;
      strokeRect padding padding frameWidth frameHeight ;;
      set_shadowBlur 10 ;;
      strokeRect (padding + 4) (padding + 4) (frameWidth - 8) (frameHeight - 8)
  | FrameVintage =>
      set_strokeStyle (Color (frameColor options)) ;;
      set_lineWidth 12 ;;
      strokeRect padding padding frameWidth frameHeight ;;
      set_strokeStyle (Color (backgroundColor options)) ;;
      set_lineWidth 4 ;;
      strokeRect (padding + 4) (padding + 4) (frameWidth - 8) (frameHeight - 8)
  | FrameSpeechBubble =>
      set_fillStyle (Color (frameColor options)) ;;
      let bubbleRadius := 20 in
      let tailSize := 20 in
      beginPath ;;
      roundRect padding padding frameWidth (frameHeight - tailSize)
                bubbleRadius ;;
      fill ;;
      beginPath ;;
      moveTo (frameSize / 2 - tailSize / 2) (frameHeight + padding - tailSize) ;;
      lineTo (frameSize / 2) (frameHeight + padding) ;;
      lineTo (frameSize / 2 + tailSize / 2) (frameHeight + padding - tailSize) ;;
      closePath ;;
      fill
  | FrameWavy =>
      set_fillStyle (Color (frameColor options)) ;;
      beginPath ;;
      moveTo padding (padding + 10) ;;
      for_up (trips padding (padding + frameWidth) 10)
             padding (padding + frameWidth) 10 (fun x =>
        let y := padding + 5 * sin ((x - padding) * 0.1) + 5 in
        lineTo x y) ;;
      for_up (trips padding (padding + frameHeight) 10)
             padding (padding + frameHeight) 10 (fun y =>
        let x := padding + frameWidth - 5 * sin ((y - padding) * 0.1) - 5 in
        lineTo x y) ;;
      for_down (trips padding (padding + frameWidth) 10)
               (padding + frameWidth) padding 10 (fun x =>
        let y := padding + frameHeight - 5 * sin ((x - padding) * 0.1) - 5 in
        lineTo x y) ;;
      for_down (trips padding (padding + frameHeight) 10)
               (padding + frameHeight) padding 10 (fun y =>
        let x := padding + 5 * sin ((y - padding) * 0.1) + 5 in
        lineTo x y) ;;
      closePath ;;
      fill
  | FrameCardStyle =>
      set_fillStyle (Color (frameColor options)) ;;
      set_shadowColor "rgba(0, 0, 0, 0.3)" ;;
      set_shadowBlur 10 ;;
      set_shadowOffsetX 3 ;;
      set_shadowOffsetY 3 ;;
      fillRect padding padding frameWidth frameHeight ;;
      set_shadowColor "transparent" ;;
      set_fillStyle (Color "#ffffff") ;;
      let borderWidth := 10 in
      fillRect (padding + borderWidth) (padding + borderWidth)
               (frameWidth - borderWidth * 2) (frameHeight - borderWidth * 2)
  | FrameNone => skip
  end ;;
  restore.

(* ================================================================== *)
(** * The component's state and its collaborators *)
(* ================================================================== *)

(** The canvas element: its size attributes and its 2D context.
    [has2d] tells whether [getContext('2d')] yields the context. *)
Record HTMLCanvasElement : Type := {
  width : R;
  height : R;
  has2d : bool;
  context : ctx
}.

(** Assigning [width] or [height] resizes the bitmap, which clears it
    and puts the context back in its default state. *)
Definition set_width (w : R) (cv : HTMLCanvasElement) : HTMLCanvasElement :=
  {| width := w; height := height cv; has2d := has2d cv;
     context := initial_ctx |}.

Definition set_height (h : R) (cv : HTMLCanvasElement) : HTMLCanvasElement :=
  {| width := width cv; height := h; has2d := has2d cv;
     context := initial_ctx |}.

Definition on_context (k : cmd) (cv : HTMLCanvasElement) : HTMLCanvasElement :=
  {| width := width cv; height := height cv; has2d := has2d cv;
     context := k (context cv) |}.

Record File : Type := { file_name : string; file_size : Z }.

Inductive toast : Type :=
| toast_error (msg : string)
| toast_success (msg : string).

(** The options record handed to the encoder. *)
Record QRCodeOptions : Type := {
  qr_errorCorrectionLevel : ErrorCorrectionLevel;
  qr_type : string;
  qr_quality : R;
  qr_margin : R;
  qr_dark : string;
  qr_light : string;
  qr_width : R
}.

(** What the component calls but does not define: the [qrcode]
    package's encoder ([None] when it rejects, as it does for a payload
    beyond the capacity of the largest symbol at the requested level), the
    canvas serialiser and the file reader. *)
Record Env : Type := {
  QRCode_toDataURL : string -> QRCodeOptions -> option string;
  canvas_toDataURL : HTMLCanvasElement -> string;
  readAsDataURL : File -> string
}.

Record state : Type := {
  options : QROptions;
  qrDataUrl : string;
  logoFile : option File;
  logoDataUrl : string;
  canvasRef : bool;               (* is [canvasRef.current] set? *)
  canvas : HTMLCanvasElement;     (* the element it refers to *)
  toasts : list toast;            (* notifications shown, oldest first *)
  console : list string
}.

Definition setQrDataUrl (v : string) (s : state) : state :=
  {| options := options s; qrDataUrl := v; logoFile := logoFile s;
     logoDataUrl := logoDataUrl s; canvasRef := canvasRef s;
     canvas := canvas s; toasts := toasts s; console := console s |}.

Definition setLogoFile (v : option File) (s : state) : state :=
  {| options := options s; qrDataUrl := qrDataUrl s; logoFile := v;
     logoDataUrl := logoDataUrl s; canvasRef := canvasRef s;
     canvas := canvas s; toasts := toasts s; console := console s |}.

Definition setLogoDataUrl (v : string) (s : state) : state :=
  {| options := options s; qrDataUrl := qrDataUrl s; logoFile := logoFile s;
     logoDataUrl := v; canvasRef := canvasRef s;
     canvas := canvas s; toasts := toasts s; console := console s |}.

Definition with_canvas (f : HTMLCanvasElement -> HTMLCanvasElement)
    (s : state) : state :=
  {| options := options s; qrDataUrl := qrDataUrl s; logoFile := logoFile s;
     logoDataUrl := logoDataUrl s; canvasRef := canvasRef s;
     canvas := f (canvas s); toasts := toasts s; console := console s |}.

Definition show_toast (t : toast) (s : state) : state :=
  {| options := options s; qrDataUrl := qrDataUrl s; logoFile := logoFile s;
     logoDataUrl := logoDataUrl s; canvasRef := canvasRef s;
     canvas := canvas s; toasts := toasts s ++ [t]; console := console s |}.

Definition console_error (msg : string) (s : state) : state :=
  {| options := options s; qrDataUrl := qrDataUrl s; logoFile := logoFile s;
     logoDataUrl := logoDataUrl s; canvasRef := canvasRef s;
     canvas := canvas s; toasts := toasts s; console := console s ++ [msg] |}.

(* ================================================================== *)
(** * [generateQR]

    The function suspends twice, on the decoding of the symbol image and
    of the logo image.  Each part is a function of the state; a part that
    ends by setting an image's [src] returns what the image's [onload]
    handler has captured. *)
(* ================================================================== *)

(** What the symbol image's [onload] closes over. *)
Record symbolLoad : Type := {
  sl_options : QROptions;
  sl_logoDataUrl : string;
  sl_frameSize : R;
  sl_src : string
}.

(** What the logo image's [onload] closes over. *)
Record logoLoad : Type := {
  ll_options : QROptions;
  ll_frameSize : R;
  ll_src : string
}.

(** The test guarding the frame draw that precedes the symbol. *)
Definition frame_first_test (options : QROptions) : bool :=
  negb (FrameType_eqb (frameType options) FrameNone) &&
  (FrameType_eqb (frameType options) FrameSpeechBubble
   || FrameType_eqb (frameType options) FrameWavy
   || FrameType_eqb (frameType options) FrameCardStyle).

(** The test guarding the frame draw that follows the symbol. *)
Definition frame_last_test (options : QROptions) : bool :=
  negb (FrameType_eqb (frameType options) FrameNone) &&
  negb (FrameType_eqb (frameType options) FrameSpeechBubble
        || FrameType_eqb (frameType options) FrameWavy
        || FrameType_eqb (frameType options) FrameCardStyle).

Definition extraSpace (options : QROptions) : R :=
  if negb (FrameType_eqb (frameType options) FrameNone) then 60 else 0.

Definition textSpace (options : QROptions) : R :=
  if truthy (bottomText options) then 40 else 0.

Definition frameSize (options : QROptions) : R :=
  size options + extraSpace options.

Definition totalHeight (options : QROptions) : R :=
  frameSize options + textSpace options.

(** The caption draw, written twice in the source with the same text. *)
Definition draw_bottom_text (options : QROptions) (frameSize : R) : cmd :=
  if truthy (bottomText options) then
    set_fillStyle (Color (bottomTextColor options)) ;;
    set_font {| font_px := bottomTextSize options; font_family := "Arial" |} ;;
    set_textAlign "center" ;;
    fillText (bottomText options) (frameSize / 2) (frameSize + 25)
  else skip.

(** The object [generateQR] builds for the encoder. *)
Definition qrOptions (options : QROptions) : QRCodeOptions := {|
  qr_errorCorrectionLevel := errorCorrectionLevel options;
  qr_type := "image/png";
  qr_quality := 0.92;
  qr_margin := margin options;
  qr_dark := foregroundColor options;
  qr_light := backgroundColor options;
  qr_width := size options |}.

Section Component.

Variable env : Env.

(** From the call to [qrImg.src = dataUrl], or to the [catch] block. *)
Definition generateQR (s : state) : state * option symbolLoad :=
  let options := options s in
  let qrOptions := qrOptions options in
  match QRCode_toDataURL env (text options) qrOptions with
  | None =>
      (show_toast (toast_error "Failed to generate QR code")
         (console_error "Error generating QR code:" s), None)
  | Some dataUrl =>
      if negb (canvasRef s) then (s, None) else
      if negb (has2d (canvas s)) then (s, None) else
      let frameSize := frameSize options in
      let totalHeight := totalHeight options in
      let s := with_canvas (set_width frameSize) s in
      let s := with_canvas (set_height totalHeight) s in
      let s := with_canvas (on_context (
          clearRect 0 0 frameSize totalHeight ;;
          when (frame_first_test options) (drawFrame options frameSize))) s in
      (s, Some {| sl_options := options; sl_logoDataUrl := logoDataUrl s;
                  sl_frameSize := frameSize; sl_src := dataUrl |})
  end.

(** [qrImg.onload]. *)
Definition qrImg_onload (l : symbolLoad) (s : state)
    : state * option logoLoad :=
  let options := sl_options l in
  let frameSize := sl_frameSize l in
  let qrX := (frameSize - size options) / 2 in
  let qrY := (frameSize - size options) / 2 in
  let s := with_canvas (on_context (
      applyQRShape options qrX qrY (size options) ;;
      drawImage (sl_src l) qrX qrY (size options) (size options) ;;
      restore ;;
      when (frame_last_test options) (drawFrame options frameSize))) s in
  if truthy (sl_logoDataUrl l) then
    (s, Some {| ll_options := options; ll_frameSize := frameSize;
                ll_src := sl_logoDataUrl l |})
  else
    let s := with_canvas (on_context (draw_bottom_text options frameSize)) s in
    let finalDataUrl := canvas_toDataURL env (canvas s) in
    (setQrDataUrl finalDataUrl s, None).

(** [logoImg.onload]. *)
Definition logoImg_onload (l : logoLoad) (s : state) : state :=
  let options := ll_options l in
  let frameSize := ll_frameSize l in
  let logoSize := size options * 0.2 in
  let logoX := (frameSize - logoSize) / 2 in
  let logoY := (frameSize - logoSize) / 2 in
  let s := with_canvas (on_context (
      set_fillStyle (Color (backgroundColor options)) ;;
      beginPath ;;
      arc (frameSize / 2) (frameSize / 2) (logoSize / 2 + 5) 0 (2 * PI) ;;
      fill ;;
      drawImage (ll_src l) logoX logoY logoSize logoSize ;;
      draw_bottom_text options frameSize)) s in
  let finalDataUrl := canvas_toDataURL env (canvas s) in
  setQrDataUrl finalDataUrl s.

(** One whole run: the call, then the [onload] of each image that
    decodes, with nothing else happening in between.  [decodes src]
    tells whether the browser decodes the image at address [src].  The
    component sets no [onerror]: an image that does not decode never
    calls its [onload], and the run ends where it stands, with what has
    been drawn so far left on the canvas and no image published. *)
Definition run (decodes : string -> bool) (s : state) : state :=
  match generateQR s with
  | (s1, None) => s1
  | (s1, Some l1) =>
      if decodes (sl_src l1) then
        match qrImg_onload l1 s1 with
        | (s2, None) => s2
        | (s2, Some l2) =>
            if decodes (ll_src l2) then logoImg_onload l2 s2 else s2
        end
      else s1
  end.

(** The run in which every image decodes. *)
Definition render (s : state) : state := run (fun _ => true) s.

(** [handleLogoUpload], up to [reader.readAsDataURL(file)]: the result
    carries the file the reader was started on, if any. *)
Definition handleLogoUpload (file : option File) (s : state)
    : state * option File :=
  match file with
  | None => (s, None)
  | Some file =>
      if (file_size file >? 5 * 1024 * 1024)%Z then
        (show_toast (toast_error "Logo file size must be less than 5MB") s,
         None)
      else
        (setLogoFile (Some file) s, Some file)
  end.

(** [reader.onload]. *)
Definition reader_onload (file : File) (s : state) : state :=
  show_toast (toast_success "Logo uploaded successfully!")
    (setLogoDataUrl (readAsDataURL env file) s).

(** The upload, with the read completing. *)
Definition upload (file : option File) (s : state) : state :=
  match handleLogoUpload file s with
  | (s1, None) => s1
  | (s1, Some f) => reader_onload f s1
  end.

End Component.

(* ================================================================== *)
(** * What the drawing operations cover

    The figures of the calls the component makes, as sets of points of
    the plane.  A path is filled, and clipped to, by the non-zero winding
    rule. *)
(* ================================================================== *)

Module Geometry.

Definition in_rect (x y w h : R) (p : point) : Prop :=
  x <= fst p <= x + w /\ y <= snd p <= y + h.

Definition in_disc (cx cy r : R) (p : point) : Prop :=
  (fst p - cx) * (fst p - cx) + (snd p - cy) * (snd p - cy) <= r * r.

(** A rectangle whose four corners are rounded by quarter circles. *)
Definition in_round_rect (x y w h r : R) (p : point) : Prop :=
  in_rect x y w h p /\
  (fst p < x + r -> snd p < y + r -> in_disc (x + r) (y + r) r p) /\
  (x + w - r < fst p -> snd p < y + r -> in_disc (x + w - r) (y + r) r p) /\
  (fst p < x + r -> y + h - r < snd p -> in_disc (x + r) (y + h - r) r p) /\
  (x + w - r < fst p -> y + h - r < snd p ->
   in_disc (x + w - r) (y + h - r) r p).

(** The band a stroke of half-width [d] paints along the outline of a
    rectangle (mitred corners). *)
Definition in_band (d x y w h : R) (p : point) : Prop :=
  in_rect (x - d) (y - d) (w + 2 * d) (h + 2 * d) p /\
  ~ (x + d < fst p < x + w - d /\ y + d < snd p < y + h - d).

(** ** Polygons and the winding number

    The winding number of a closed polygon around [p] is counted on the
    horizontal ray leaving [p] to the right: an edge going up across the
    ray counts 1, an edge going down across it counts -1. *)

Definition above (p v : point) : bool :=
  if Rlt_dec (snd p) (snd v) then true else false.

(** Twice the signed area of the triangle [a], [b], [p]. *)
Definition side (a b p : point) : R :=
  (fst b - fst a) * (snd p - snd a) - (fst p - fst a) * (snd b - snd a).

Definition crossing (p a b : point) : Z :=
  match above p a, above p b with
  | false, true => if Rlt_dec 0 (side a b p) then 1%Z else 0%Z
  | true, false => if Rlt_dec (side a b p) 0 then (-1)%Z else 0%Z
  | _, _ => 0%Z
  end.

(** The edges of the closed polygon on the vertices [vs]. *)
Definition edges (vs : list point) : list (point * point) :=
  match vs with
  | [] => []
  | v :: tl => combine vs (tl ++ [v])
  end.

Definition sumZ (l : list Z) : Z := fold_right Z.add 0%Z l.

Definition winding (p : point) (vs : list point) : Z :=
  sumZ (map (fun e => crossing p (fst e) (snd e)) (edges vs)).

(** Companions of [crossing] used to reason about it: [level] tells
    whether a vertex is above the ray's line, and [crossing_left] counts
    the edges that cross that line at or to the left of [p]. *)
Definition level (p v : point) : Z := if above p v then 1%Z else 0%Z.

Definition crossing_left (p a b : point) : Z :=
  match above p a, above p b with
  | false, true => if Rlt_dec 0 (side a b p) then 0%Z else 1%Z
  | true, false => if Rlt_dec (side a b p) 0 then 0%Z else (-1)%Z
  | _, _ => 0%Z
  end.

(** ** The figures of a path *)

Inductive figure : Type :=
| FRect (x y w h : R)
| FRoundRect (x y w h r : R)
| FArc (x y r a0 a1 : R)
| FPolygon (vs : list point).

Definition flush (open : list point) : list figure :=
  match open with
  | [] => []
  | _ :: _ => [FPolygon open]
  end.

(** The sub-paths of a path, each closed as filling closes it; [open]
    holds the vertices of the sub-path under construction.  An arc is
    taken on its own, as the component draws it: first in its path. *)
Fixpoint figures_from (open : list point) (cmds : path) : list figure :=
  match cmds with
  | [] => flush open
  | MoveTo x y :: rest => flush open ++ figures_from [(x, y)] rest
  | LineTo x y :: rest => figures_from (open ++ [(x, y)]) rest
  | ClosePath :: rest =>
      flush open ++ figures_from (firstn 1 open) rest
  | Rect x y w h :: rest =>
      flush open ++ FRect x y w h :: figures_from [(x, y)] rest
  | RoundRect x y w h r :: rest =>
      flush open ++ FRoundRect x y w h r :: figures_from [(x, y)] rest
  | Arc x y r a0 a1 :: rest =>
      flush open ++ FArc x y r a0 a1 :: figures_from [] rest
  end.

Definition figures (cmds : path) : list figure := figures_from [] cmds.

(** Only an arc of a full turn is given an interior. *)
Definition inside_figure (f : figure) (p : point) : Prop :=
  match f with
  | FRect x y w h => in_rect x y w h p
  | FRoundRect x y w h r => in_round_rect x y w h r p
  | FArc x y r a0 a1 => 2 * PI <= a1 - a0 /\ in_disc x y r p
  | FPolygon vs => winding p vs <> 0%Z
  end.

Definition inside_path (cmds : path) (p : point) : Prop :=
  exists f, In f (figures cmds) /\ inside_figure f p.

Definition in_clip (cl : list path) (p : point) : Prop :=
  Forall (fun cmds => inside_path cmds p) cl.

(** The figure of a drawing call: the points of the shape the call
    names.  The outline of a stroked path and the glyphs of a text are not
    described, and no point is counted for them.  A shadow is not part of
    the figure either: a call made with a visible shadow also paints
    outside its figure, so the figure bounds what a call paints from above
    only for the calls that are [unshadowed]. *)
Definition figure_of (d : drawop) (p : point) : Prop :=
  match kind d with
  | ClearRect x y w h => in_rect x y w h p
  | FillRect x y w h => in_rect x y w h p
  | DrawImage _ x y w h => in_rect x y w h p
  | StrokeRect x y w h => in_band (lineWidth (st d) / 2) x y w h p
  | Fill cmds => inside_path cmds p
  | Stroke _ => False
  | FillText _ _ _ => False
  end.

(** An operation covers the points of its figure that lie in the clip
    region in force. *)
Definition covers (d : drawop) (p : point) : Prop :=
  figure_of d p /\ in_clip (clip (st d)) p.

(** A call made with no blur and no offset casts no shadow, whatever the
    shadow colour: its figure, cut by the clip region, is all it paints. *)
Definition unshadowed (d : drawop) : Prop :=
  shadowBlur (st d) = 0 /\ shadowOffsetX (st d) = 0 /\
  shadowOffsetY (st d) = 0.

(** ** Convex hulls *)

Definition mix (t : R) (a b : point) : point :=
  (t * fst a + (1 - t) * fst b, t * snd a + (1 - t) * snd b).

Inductive hull (vs : list point) : point -> Prop :=
| hull_vertex v : In v vs -> hull vs v
| hull_mix a b t :
    hull vs a -> hull vs b -> 0 <= t <= 1 -> hull vs (mix t a b).

End Geometry.

Import Geometry.

(* ================================================================== *)
(** * Vocabulary of the statements

    Names for the operations a run leaves in the log, and for the
    conditions under which a run reaches the canvas. *)
(* ================================================================== *)

(** The operations a procedure adds to the log when started in drawing
    state [s0]. *)
Definition ops_of (k : cmd) (s0 : drawstate) : list drawop :=
  log (k {| cur := s0; saved := []; cur_path := []; log := [] |}).

(** The clip path [applyQRShape] establishes over the region. *)
Definition shape_path (o : QROptions) (x y sz : R) : path :=
  cur_path (applyQRShape o x y sz initial_ctx).

(** Corner of the symbol region: [qrX] and [qrY] of the source. *)
Definition qrX (o : QROptions) : R := (frameSize o - size o) / 2.

Definition clear_op (o : QROptions) : drawop :=
  {| kind := ClearRect 0 0 (frameSize o) (totalHeight o);
     st := default_state |}.

Definition frame_ops (o : QROptions) : list drawop :=
  ops_of (drawFrame o (frameSize o)) default_state.

Definition symbol_op (o : QROptions) (src : string) : drawop :=
  {| kind := DrawImage src (qrX o) (qrX o) (size o) (size o);
     st := add_clip (shape_path o (qrX o) (qrX o) (size o)) default_state |}.

(** The drawing state once the logo's backing disc has been filled. *)
Definition logo_state (o : QROptions) : drawstate :=
  st_fillStyle (Color (backgroundColor o)) default_state.

Definition disc_op (o : QROptions) : drawop :=
  {| kind := Fill [Arc (frameSize o / 2) (frameSize o / 2)
                       (size o * 0.2 / 2 + 5) 0 (2 * PI)];
     st := logo_state o |}.

Definition logo_op (o : QROptions) (src : string) : drawop :=
  {| kind := DrawImage src ((frameSize o - size o * 0.2) / 2)
                           ((frameSize o - size o * 0.2) / 2)
                           (size o * 0.2) (size o * 0.2);
     st := logo_state o |}.

Definition logo_ops (o : QROptions) (logo : string) : list drawop :=
  if truthy logo then [disc_op o; logo_op o logo] else [].

(** The drawing state in which the overlay starts. *)
Definition overlay_state (o : QROptions) (logo : string) : drawstate :=
  if truthy logo then logo_state o else default_state.

Definition caption_op (o : QROptions) (s0 : drawstate) : drawop :=
  {| kind := FillText (bottomText o) (frameSize o / 2) (frameSize o + 25);
     st := st_textAlign "center"
             (st_font {| font_px := bottomTextSize o; font_family := "Arial" |}
                (st_fillStyle (Color (bottomTextColor o)) s0)) |}.

Definition caption_ops (o : QROptions) (logo : string) : list drawop :=
  if truthy (bottomText o) then [caption_op o (overlay_state o logo)] else [].

(** A run reaches the canvas when the encoder accepts the payload and
    the canvas and its context are there. *)
Definition reaches_canvas (env : Env) (s : state) (dataUrl : string) : Prop :=
  QRCode_toDataURL env (text (options s)) (qrOptions (options s))
    = Some dataUrl /\
  canvasRef s = true /\
  has2d (canvas s) = true.

(** The log of the canvas after a run in which every image decodes. *)
Definition render_log (env : Env) (s : state) : list drawop :=
  log (context (canvas (render env s))).

(** The log of the canvas after a run, given which images decode. *)
Definition run_log (env : Env) (decodes : string -> bool) (s : state)
    : list drawop :=
  log (context (canvas (run env decodes s))).

(** The logo, when there is one, decodes. *)
Definition logo_loads (decodes : string -> bool) (logo : string) : Prop :=
  logo = EmptyString \/ decodes logo = true.

(** Whether a run gets to publish its image: every image it waits for
    decodes. *)
Definition publishes (decodes : string -> bool) (logo src : string) : bool :=
  decodes src && (negb (truthy logo) || decodes logo).

(** The three frame styles painted under the symbol. *)
Definition background_class (f : FrameType) : Prop :=
  f = FrameSpeechBubble \/ f = FrameWavy \/ f = FrameCardStyle.

(** The vertices of the regular hexagon inscribed in the circle of
    radius [sz / 2] about the centre of the region, vertex [i] at angle
    [i] times 60 degrees. *)
Definition hex_vertex (x y sz : R) (i : nat) : point :=
  (x + sz / 2 + sz / 2 * cos (INR i * (PI / 3)),
   y + sz / 2 + sz / 2 * sin (INR i * (PI / 3))).

Definition hexagon (x y sz : R) : list point :=
  map (hex_vertex x y sz) (List.seq 0 6).

(** ** Sample inputs *)

(** The options the component starts with. *)
Definition default_options : QROptions := {|
  text := "https://lovable.dev";
  size := 300;
  foregroundColor := "#000000";
  backgroundColor := "#ffffff";
  errorCorrectionLevel := M;
  margin := 4;
  frameType := FrameNone;
  frameColor := "#6366f1";
  shape := ShapeSquare;
  bottomText := "Scan Me";
  bottomTextColor := "#000000";
  bottomTextSize := 16
|}.

Definition with_frame (f : FrameType) (o : QROptions) : QROptions := {|
  text := text o; size := size o;
  foregroundColor := foregroundColor o; backgroundColor := backgroundColor o;
  errorCorrectionLevel := errorCorrectionLevel o; margin := margin o;
  frameType := f; frameColor := frameColor o; shape := shape o;
  bottomText := bottomText o; bottomTextColor := bottomTextColor o;
  bottomTextSize := bottomTextSize o |}.

Definition with_shape (sh : Shape) (o : QROptions) : QROptions := {|
  text := text o; size := size o;
  foregroundColor := foregroundColor o; backgroundColor := backgroundColor o;
  errorCorrectionLevel := errorCorrectionLevel o; margin := margin o;
  frameType := frameType o; frameColor := frameColor o; shape := sh;
  bottomText := bottomText o; bottomTextColor := bottomTextColor o;
  bottomTextSize := bottomTextSize o |}.

Definition with_text (t : string) (o : QROptions) : QROptions := {|
  text := t; size := size o;
  foregroundColor := foregroundColor o; backgroundColor := backgroundColor o;
  errorCorrectionLevel := errorCorrectionLevel o; margin := margin o;
  frameType := frameType o; frameColor := frameColor o; shape := shape o;
  bottomText := bottomText o; bottomTextColor := bottomTextColor o;
  bottomTextSize := bottomTextSize o |}.

(** The state of a freshly mounted component showing options [o], with
    logo data [logo]; a new canvas is 300 by 150. *)
Definition mounted (o : QROptions) (logo : string) : state := {|
  options := o;
  qrDataUrl := EmptyString;
  logoFile := None;
  logoDataUrl := logo;
  canvasRef := true;
  canvas := {| width := 300; height := 150; has2d := true;
               context := initial_ctx |};
  toasts := [];
  console := []
|}.

(** Byte capacity of the largest symbol at each level. *)
Definition capacity (l : ErrorCorrectionLevel) : Z :=
  match l with
  | L => 2953 | M => 2331 | Q => 1663 | H => 1273
  end%Z.

(** A stand-in for the collaborators: the encoder rejects a payload
    longer than the capacity at the requested level. *)
Definition sample_env : Env := {|
  QRCode_toDataURL := fun t o =>
    if (Z.of_nat (String.length t) <=? capacity (qr_errorCorrectionLevel o))%Z
    then Some ("data:image/png;base64,QR:" ++ t)%string
    else None;
  canvas_toDataURL := fun _ => "data:image/png;base64,CANVAS";
  readAsDataURL := fun f => ("data:image/*;base64," ++ file_name f)%string
|}.

(** Stand-ins for the browser's image decoder: one decodes every image
    data URL, the other PNG data only. *)
Definition sample_decodes (src : string) : bool := prefix "data:image/" src.

Definition png_only (src : string) : bool := prefix "data:image/png" src.

(** A payload of [n] bytes. *)
Fixpoint payload (n : nat) : string :=
  match n with
  | O => EmptyString
  | S k => String "a"%char (payload k)
  end.

(* ================================================================== *)
(** * The phases of a run *)
(* ================================================================== *)

(** [adds k f ops]: procedure [k] turns drawing state [s] into [f s],
    leaves the stack alone, and appends [ops s] to the log. *)
Definition adds (k : cmd) (f : drawstate -> drawstate)
    (ops : drawstate -> list drawop) : Prop :=
  forall c,
    cur (k c) = f (cur c) /\
    saved (k c) = saved c /\
    log (k c) = log c ++ ops (cur c).

(** The calls of [qrImg.onload] that draw the symbol. *)
Definition symbol_phase (o : QROptions) (src : string) : cmd :=
  applyQRShape o (qrX o) (qrX o) (size o) ;;
  drawImage src (qrX o) (qrX o) (size o) (size o) ;;
  restore.

(** The calls of [logoImg.onload] that draw the disc and the logo. *)
Definition logo_phase (o : QROptions) (logo : string) : cmd :=
  set_fillStyle (Color (backgroundColor o)) ;;
  beginPath ;;
  arc (frameSize o / 2) (frameSize o / 2) (size o * 0.2 / 2 + 5) 0 (2 * PI) ;;
  fill ;;
  drawImage logo ((frameSize o - size o * 0.2) / 2)
                 ((frameSize o - size o * 0.2) / 2)
                 (size o * 0.2) (size o * 0.2).

(** Everything a run calls on the context, in order, when every image
    decodes. *)
Definition pipeline (o : QROptions) (logo src : string) : cmd :=
  clearRect 0 0 (frameSize o) (totalHeight o) ;;
  when (frame_first_test o) (drawFrame o (frameSize o)) ;;
  symbol_phase o src ;;
  when (frame_last_test o) (drawFrame o (frameSize o)) ;;
  when (truthy logo) (logo_phase o logo) ;;
  draw_bottom_text o (frameSize o).

(** The operations up to the overlay: clearing, symbol and frame. *)
Definition base_ops (o : QROptions) (src : string) : list drawop :=
  clear_op o ::
  (if frame_first_test o then frame_ops o else []) ++
  symbol_op o src ::
  (if frame_last_test o then frame_ops o else []).

(** The log a run leaves when every image decodes. *)
Definition expected_log (o : QROptions) (logo src : string) : list drawop :=
  base_ops o src ++ logo_ops o logo ++ caption_ops o logo.

(** What a run calls on the context, given which images decode: the
    calls of each [onload] are made only when its image decodes, and the
    logo is waited for only when there is one. *)
Definition run_pipeline (decodes : string -> bool) (o : QROptions)
    (logo src : string) : cmd :=
  clearRect 0 0 (frameSize o) (totalHeight o) ;;
  when (frame_first_test o) (drawFrame o (frameSize o)) ;;
  when (decodes src)
    (symbol_phase o src ;;
     when (frame_last_test o) (drawFrame o (frameSize o)) ;;
     when (negb (truthy logo) || decodes logo)
       (when (truthy logo) (logo_phase o logo) ;;
        draw_bottom_text o (frameSize o))).

(** The log such a run leaves. *)
Definition run_ops (decodes : string -> bool) (o : QROptions)
    (logo src : string) : list drawop :=
  clear_op o ::
  (if frame_first_test o then frame_ops o else []) ++
  (if decodes src then
     symbol_op o src ::
     (if frame_last_test o then frame_ops o else []) ++
     (if negb (truthy logo) || decodes logo
      then logo_ops o logo ++ caption_ops o logo else [])
   else []).

(** The path of the hexagon on the vertices [hex_vertex]. *)
Definition hexagon_path (x y sz : R) : path :=
  MoveTo (fst (hex_vertex x y sz 0)) (snd (hex_vertex x y sz 0)) ::
  map (fun i => LineTo (fst (hex_vertex x y sz i)) (snd (hex_vertex x y sz i)))
      (List.seq 1 6) ++
  [ClosePath].


(* ================================================================== *)
(** * Three statements the code does not satisfy as worded *)
(* ================================================================== *)





(** ** More sample inputs, and one more name *)

(** The default options with the [simple] frame. *)
Definition framed_options : QROptions := with_frame FrameSimple default_options.

(** What [sample_env] encodes the default payload to. *)
Definition sample_src : string := "data:image/png;base64,QR:https://lovable.dev".

Definition sample_logo : string := "data:image/png;base64,LOGO".


(* ================================================================== *)
(** * The rest of [QRGenerator.tsx]: download and logo removal

    These two handlers also touch the page outside the component state:
    the file input and the downloads the browser is asked for. *)
(* ================================================================== *)

Record page : Type := {
  component : state;
  fileInput : option string;        (* value of the file input, if mounted *)
  downloads : list (string * string) (* file name and address, oldest first *)
}.

(** A number in a template string: its decimal digits. *)
Definition decimal (n : N) : string :=
  DecimalString.NilZero.string_of_uint (N.to_uint n).

(** [downloadQR], run when [Date.now()] is [now]. *)
Definition downloadQR (now : N) (pg : page) : page :=
  if negb (truthy (qrDataUrl (component pg))) then pg else
  let link_download := ("qr-code-" ++ decimal now ++ ".png")%string in
  let link_href := qrDataUrl (component pg) in
  {| component := show_toast (toast_success "QR code downloaded!") (component pg);
     fileInput := fileInput pg;
     downloads := downloads pg ++ [(link_download, link_href)] |}.

Definition removeLogo (pg : page) : page :=
  let s := setLogoFile None (component pg) in
  let s := setLogoDataUrl EmptyString s in
  {| component := show_toast (toast_success "Logo removed") s;
     fileInput := match fileInput pg with
                  | Some _ => Some EmptyString
                  | None => None
                  end;
     downloads := downloads pg |}.

(** The component state of a page changed by [f]. *)
Definition on_app (f : state -> state) (pg : page) : page :=
  {| component := f (component pg); fileInput := fileInput pg; downloads := downloads pg |}.

(** ** Paths made of straight lines *)

Definition lines_only (cmds : path) : Prop :=
  Forall (fun c => match c with
                   | MoveTo _ _ | LineTo _ _ | ClosePath => True
                   | _ => False
                   end) cmds.

(** The points a path of straight lines goes through. *)
Fixpoint line_points (cmds : path) : list point :=
  match cmds with
  | [] => []
  | MoveTo x y :: rest => (x, y) :: line_points rest
  | LineTo x y :: rest => (x, y) :: line_points rest
  | _ :: rest => line_points rest
  end.

(** The square inset by a tenth of [frameSize] in which [drawFrame]
    draws: [padding], [frameWidth] and [frameHeight] of the source. *)
Definition in_inset (o : QROptions) (p : point) : Prop :=
  in_rect (frameSize o * 0.1) (frameSize o * 0.1)
          (frameSize o - frameSize o * 0.1 * 2)
          (frameSize o - frameSize o * 0.1 * 2) p.

(** The four corners of the logo image. *)
Definition logo_corners (o : QROptions) : list point :=
  let lo := (frameSize o - size o * 0.2) / 2 in
  let hi := lo + size o * 0.2 in
  [(lo, lo); (hi, lo); (lo, hi); (hi, hi)].

(* ================================================================== *)
(** * The profile builder and the profile page

    [WebProfileBuilder.tsx] edits a profile, a title with a list of
    links, and saves it in the browser's local storage; the profile page
    loads it back by its id. *)
(* ================================================================== *)

Module Profile.

Record LinkData : Type := {
  link_id : string;
  link_title : string;
  link_url : string;
  link_description : option string;
  link_customLogo : option string;
  link_socialIcon : option string
}.

Record ProfileData : Type := {
  profile_id : option string;
  profile_title : string;
  profile_description : option string;
  coverPhoto : option string;
  brandLogo : option string;
  links : list LinkData
}.

(** [keyof LinkData]. *)
Inductive LinkField : Type :=
| FieldId | FieldTitle | FieldUrl | FieldDescription
| FieldCustomLogo | FieldSocialIcon.

Definition LinkField_eqb (a b : LinkField) : bool :=
  match a, b with
  | FieldId, FieldId | FieldTitle, FieldTitle | FieldUrl, FieldUrl
  | FieldDescription, FieldDescription
  | FieldCustomLogo, FieldCustomLogo
  | FieldSocialIcon, FieldSocialIcon => true
  | _, _ => false
  end.

(** The built-ins of the language the code calls: they are taken as
    they are, whatever they do to text outside ASCII. *)
Record JS : Type := {
  toLowerCase : string -> string;
  trim : string -> string;
  JSON_stringify : ProfileData -> string;
  JSON_parse : string -> option ProfileData   (* [None]: it throws *)
}.

(** [s.includes(needle)]. *)
Fixpoint includes (s needle : string) : bool :=
  if prefix needle s then true
  else match s with
       | EmptyString => false
       | String _ rest => includes rest needle
       end.

(** [{ ...link, [field]: value }]. *)
Definition set_field (link : LinkData) (field : LinkField) (value : string)
    : LinkData :=
  match field with
  | FieldId =>
      {| link_id := value; link_title := link_title link;
         link_url := link_url link; link_description := link_description link;
         link_customLogo := link_customLogo link;
         link_socialIcon := link_socialIcon link |}
  | FieldTitle =>
      {| link_id := link_id link; link_title := value;
         link_url := link_url link; link_description := link_description link;
         link_customLogo := link_customLogo link;
         link_socialIcon := link_socialIcon link |}
  | FieldUrl =>
      {| link_id := link_id link; link_title := link_title link;
         link_url := value; link_description := link_description link;
         link_customLogo := link_customLogo link;
         link_socialIcon := link_socialIcon link |}
  | FieldDescription =>
      {| link_id := link_id link; link_title := link_title link;
         link_url := link_url link; link_description := Some value;
         link_customLogo := link_customLogo link;
         link_socialIcon := link_socialIcon link |}
  | FieldCustomLogo =>
      {| link_id := link_id link; link_title := link_title link;
         link_url := link_url link; link_description := link_description link;
         link_customLogo := Some value;
         link_socialIcon := link_socialIcon link |}
  | FieldSocialIcon =>
      {| link_id := link_id link; link_title := link_title link;
         link_url := link_url link; link_description := link_description link;
         link_customLogo := link_customLogo link;
         link_socialIcon := Some value |}
  end.

Definition set_socialIcon (v : option string) (link : LinkData) : LinkData :=
  {| link_id := link_id link; link_title := link_title link;
     link_url := link_url link; link_description := link_description link;
     link_customLogo := link_customLogo link;
     link_socialIcon := v |}.

Definition set_links (l : list LinkData) (p : ProfileData) : ProfileData :=
  {| profile_id := profile_id p; profile_title := profile_title p;
     profile_description := profile_description p;
     coverPhoto := coverPhoto p; brandLogo := brandLogo p; links := l |}.

Definition set_profile_id (i : option string) (p : ProfileData) : ProfileData :=
  {| profile_id := i; profile_title := profile_title p;
     profile_description := profile_description p;
     coverPhoto := coverPhoto p; brandLogo := brandLogo p;
     links := links p |}.

(** [v || undefined] for a string or [null]. *)
Definition or_undefined (v : option string) : option string :=
  match v with
  | Some t => if truthy t then Some t else None
  | None => None
  end.

(** Local storage: the newest entry of a key is the one in force. *)
Definition storage : Type := list (string * string).

Fixpoint getItem (k : string) (st : storage) : option string :=
  match st with
  | [] => None
  | (k', v) :: rest => if String.eqb k' k then Some v else getItem k rest
  end.

Definition setItem (k v : string) (st : storage) : storage := (k, v) :: st.

(** A notification of the builder: title, description, and whether it
    is shown as destructive. *)
Record notice : Type := {
  notice_title : string;
  notice_description : string;
  destructive : bool
}.

(** The builder page: the profile being edited and what it has done to
    the browser. *)
Record builder : Type := {
  profile : ProfileData;
  localStorage : storage;
  notices : list notice;       (* oldest first *)
  navigations : list string    (* routes navigated to, oldest first *)
}.

(** The profile page. *)
Record view : Type := {
  view_profile : option ProfileData;
  loading : bool
}.

Section WithBuiltins.

Variable js : JS.

Definition socialMediaDetector (url : string) : option string :=
  let domain := toLowerCase js url in
  if includes domain "facebook.com" || includes domain "fb.com"
  then Some "facebook"
  else if includes domain "instagram.com" then Some "instagram"
  else if includes domain "twitter.com" || includes domain "x.com"
  then Some "twitter"
  else if includes domain "linkedin.com" then Some "linkedin"
  else if includes domain "youtube.com" || includes domain "youtu.be"
  then Some "youtube"
  else if includes domain "whatsapp.com" || includes domain "wa.me"
  then Some "whatsapp"
  else if includes domain "telegram.me" || includes domain "t.me"
  then Some "telegram"
  else None.

(** The new list of links [addLink] builds, when [Date.now()] is [now]. *)
Definition addLink (now : N) (p : ProfileData) : ProfileData :=
  let newLink := {|
    link_id := decimal now;
    link_title := EmptyString;
    link_url := EmptyString;
    link_description := Some EmptyString;
    link_customLogo := None;
    link_socialIcon := None |} in
  set_links (links p ++ [newLink]) p.

Definition updateLink (id : string) (field : LinkField) (value : string)
    (p : ProfileData) : ProfileData :=
  set_links
    (map (fun link =>
            if String.eqb (link_id link) id then
              let updatedLink := set_field link field value in
              if LinkField_eqb field FieldUrl then
                let socialType := socialMediaDetector value in
                set_socialIcon (or_undefined socialType) updatedLink
              else updatedLink
            else link)
         (links p))
    p.

Definition removeLink (id : string) (p : ProfileData) : ProfileData :=
  set_links
    (filter (fun link => negb (String.eqb (link_id link) id)) (links p)) p.

Definition saveProfile (now : N) (b : builder) : builder :=
  if negb (truthy (trim js (profile_title (profile b)))) then
    {| profile := profile b; localStorage := localStorage b;
       notices := notices b ++
         [ {| notice_title := "Error";
              notice_description := "Profile title is required";
              destructive := true |} ];
       navigations := navigations b |}
  else
    let profileId := decimal now in
    let profileWithId := set_profile_id (Some profileId) (profile b) in
    {| profile := profile b;
       localStorage :=
         setItem ("profile_" ++ profileId)%string
                 (JSON_stringify js profileWithId) (localStorage b);
       notices := notices b ++
         [ {| notice_title := "Success";
              notice_description := "Profile saved successfully!";
              destructive := false |} ];
       navigations := navigations b ++ [("/profile/" ++ profileId)%string] |}.

(** The effect of the profile page for route parameter [id]; [None]
    when [JSON.parse] throws. *)
Definition load_profile (id : option string) (st : storage) (v : view)
    : option view :=
  let done (v : view) :=
    Some {| view_profile := view_profile v; loading := false |} in
  match id with
  | None => done v
  | Some i =>
      if truthy i then
        match getItem ("profile_" ++ i)%string st with
        | None => done v
        | Some saved =>
            if truthy saved then
              match JSON_parse js saved with
              | None => None
              | Some p => done {| view_profile := Some p; loading := loading v |}
              end
            else done v
        end
      else done v
  end.

End WithBuiltins.

(** The address [handleLinkClick] opens for a link of the profile page. *)
Definition formattedUrl (url : string) : string :=
  if prefix "http" url then url else ("https://" ++ url)%string.

(** ASCII lower case, used for sample inputs. *)
Definition lower_ascii (c : ascii) : ascii :=
  let n := nat_of_ascii c in
  if ((65 <=? n) && (n <=? 90))%nat then ascii_of_nat (n + 32) else c.

Fixpoint lower (s : string) : string :=
  match s with
  | EmptyString => EmptyString
  | String c rest => String (lower_ascii c) (lower rest)
  end.

(** Stand-ins for the built-ins: ASCII lower case, no trimming, and a
    serialiser that keeps the title only. *)
Definition sample_js : JS := {|
  toLowerCase := lower;
  trim := fun s => s;
  JSON_stringify := fun p => ("{" ++ profile_title p ++ "}")%string;
  JSON_parse := fun _ => None
|}.

(** The same, with a parser that always yields [p0]. *)
Definition echo_js (p0 : ProfileData) : JS := {|
  toLowerCase := lower;
  trim := fun s => s;
  JSON_stringify := fun p => ("{" ++ profile_title p ++ "}")%string;
  JSON_parse := fun _ => Some p0
|}.

Definition empty_profile : ProfileData := {|
  profile_id := None; profile_title := EmptyString;
  profile_description := Some EmptyString;
  coverPhoto := None; brandLogo := None; links := []
|}.

End Profile.

(* ================================================================== *)
(** * Properties of the drawing context *)
(* ================================================================== *)

Section ContextFacts.

(** A numeric loop whose body only extends the path only extends the
    path. *)
Lemma for_up_path n x bound step (body : R -> cmd) :
  (forall v, exists f, forall c, body v c = with_path f c) ->
  exists f, forall c, for_up n x bound step body c = with_path f c.
Proof.
  intros Hb. revert x.
  induction n as [|n IH]; intros x; simpl.
  - exists (fun p => p). intros [cu sa pa lg]. reflexivity.
  - destruct (Rle_dec x bound).
    + destruct (Hb x) as [f Hf]. destruct (IH (x + step)) as [g Hg].
      exists (fun p => g (f p)). intros c. unfold andThen.
      rewrite Hf, Hg. reflexivity.
    + exists (fun p => p). intros [cu sa pa lg]. reflexivity.
Qed.

Lemma for_down_path n x bound step (body : R -> cmd) :
  (forall v, exists f, forall c, body v c = with_path f c) ->
  exists f, forall c, for_down n x bound step body c = with_path f c.
Proof.
  intros Hb. revert x.
  induction n as [|n IH]; intros x; simpl.
  - exists (fun p => p). intros [cu sa pa lg]. reflexivity.
  - destruct (Rge_dec x bound).
    + destruct (Hb x) as [f Hf]. destruct (IH (x - step)) as [g Hg].
      exists (fun p => g (f p)). intros c. unfold andThen.
      rewrite Hf, Hg. reflexivity.
    + exists (fun p => p). intros [cu sa pa lg]. reflexivity.
Qed.

Lemma lineTo_path (g h : R -> R) :
  forall v, exists f, forall c, (fun t => lineTo (g t) (h t)) v c = with_path f c.
Proof. intros v. eexists. intros c. reflexivity. Qed.

(** [drawFrame] leaves the drawing state and the stack as it found
    them, and adds to the log operations that depend on the drawing state
    alone. *)
Lemma drawFrame_effect o fs c :
  cur (drawFrame o fs c) = cur c /\
  saved (drawFrame o fs c) = saved c /\
  log (drawFrame o fs c) = log c ++ ops_of (drawFrame o fs) (cur c).
Proof.
  unfold ops_of, drawFrame.
  destruct (frameType o); try (destruct c; split; [|split]; simpl; rewrite <- ?app_assoc, ?app_nil_r; reflexivity).
  (* wavy: the four loops only extend the path *)
  set (pad := fs * 0.1). set (fw := fs - pad * 2).
  unfold andThen.
  destruct (for_up_path (trips pad (pad + fw) 10) pad (pad + fw) 10
    (fun x => lineTo x (pad + 5 * sin ((x - pad) * 0.1) + 5))
    (lineTo_path _ _)) as [f1 H1].
  destruct (for_up_path (trips pad (pad + fw) 10) pad (pad + fw) 10
    (fun y => lineTo (pad + fw - 5 * sin ((y - pad) * 0.1) - 5) y)
    (lineTo_path _ _)) as [f2 H2].
  destruct (for_down_path (trips pad (pad + fw) 10) (pad + fw) pad 10
    (fun x => lineTo x (pad + fw - 5 * sin ((x - pad) * 0.1) - 5))
    (lineTo_path _ _)) as [f3 H3].
  destruct (for_down_path (trips pad (pad + fw) 10) (pad + fw) pad 10
    (fun y => lineTo (pad + 5 * sin ((y - pad) * 0.1) + 5) y)
    (lineTo_path _ _)) as [f4 H4].
  rewrite !H1, !H2, !H3, !H4.
  destruct c; split; [|split]; simpl; rewrite <- ?app_assoc, ?app_nil_r; reflexivity.
Qed.

End ContextFacts.

(* ================================================================== *)
(** * The effect of each phase on the context *)
(* ================================================================== *)

Section PhaseFacts.

Lemma adds_skip : adds skip (fun s => s) (fun _ => []).
Proof. intros c. unfold skip. rewrite app_nil_r. auto. Qed.

Lemma adds_seq k1 f1 ops1 k2 f2 ops2 :
  adds k1 f1 ops1 -> adds k2 f2 ops2 ->
  adds (k1 ;; k2) (fun s => f2 (f1 s)) (fun s => ops1 s ++ ops2 (f1 s)).
Proof.
  intros H1 H2 c. unfold andThen.
  destruct (H1 c) as (Hc1 & Hs1 & Hl1).
  destruct (H2 (k1 c)) as (Hc2 & Hs2 & Hl2).
  rewrite Hc2, Hs2, Hl2, Hc1, Hs1, Hl1, app_assoc. auto.
Qed.

Lemma adds_ext k f ops f' ops' :
  adds k f ops -> (forall s, f s = f' s) -> (forall s, ops s = ops' s) ->
  adds k f' ops'.
Proof.
  intros H Hf Ho c. destruct (H c) as (Hc & Hs & Hl).
  rewrite <- Hf, <- Ho. auto.
Qed.

Lemma adds_draw k : adds (draw k) (fun s => s)
                         (fun s => [ {| kind := k; st := s |} ]).
Proof. intros [cu sa pa lg]. simpl. auto. Qed.

Lemma adds_drawFrame o fs :
  adds (drawFrame o fs) (fun s => s) (ops_of (drawFrame o fs)).
Proof. intros c. apply drawFrame_effect. Qed.

Lemma applyQRShape_effect o x y sz c :
  applyQRShape o x y sz c =
  {| cur := add_clip (shape_path o x y sz) (cur c);
     saved := cur c :: saved c;
     cur_path := shape_path o x y sz;
     log := log c |}.
Proof.
  unfold shape_path, applyQRShape. destruct c, (shape o); reflexivity.
Qed.

Lemma adds_when (b : bool) k f ops :
  adds k f ops ->
  adds (when b k) (fun s => if b then f s else s)
       (fun s => if b then ops s else []).
Proof. intros H. destruct b; [exact H | exact adds_skip]. Qed.

Lemma adds_symbol_phase o src :
  adds (symbol_phase o src) (fun s => s)
       (fun s => [ {| kind := DrawImage src (qrX o) (qrX o) (size o) (size o);
                      st := add_clip (shape_path o (qrX o) (qrX o) (size o)) s |} ]).
Proof.
  intros c. unfold symbol_phase, andThen.
  rewrite applyQRShape_effect. destruct c; simpl. auto.
Qed.

Lemma adds_logo_phase o logo :
  adds (logo_phase o logo) (st_fillStyle (Color (backgroundColor o)))
       (fun s =>
          [ {| kind := Fill [Arc (frameSize o / 2) (frameSize o / 2)
                                 (size o * 0.2 / 2 + 5) 0 (2 * PI)];
               st := st_fillStyle (Color (backgroundColor o)) s |};
            {| kind := DrawImage logo ((frameSize o - size o * 0.2) / 2)
                                      ((frameSize o - size o * 0.2) / 2)
                                      (size o * 0.2) (size o * 0.2);
               st := st_fillStyle (Color (backgroundColor o)) s |} ]).
Proof.
  intros [cu sa pa lg]. simpl. rewrite <- app_assoc. auto.
Qed.

Lemma adds_draw_bottom_text o fs :
  adds (draw_bottom_text o fs)
       (fun s => if truthy (bottomText o)
                 then st_textAlign "center"
                        (st_font {| font_px := bottomTextSize o;
                                    font_family := "Arial" |}
                           (st_fillStyle (Color (bottomTextColor o)) s))
                 else s)
       (fun s => if truthy (bottomText o)
                 then [ {| kind := FillText (bottomText o) (fs / 2) (fs + 25);
                           st := st_textAlign "center"
                                   (st_font {| font_px := bottomTextSize o;
                                               font_family := "Arial" |}
                                      (st_fillStyle (Color (bottomTextColor o)) s)) |} ]
                 else []).
Proof.
  unfold draw_bottom_text. destruct (truthy (bottomText o)).
  - intros [cu sa pa lg]. simpl. auto.
  - apply adds_skip.
Qed.

(** The log of the whole pipeline, started on a blank canvas. *)
Lemma pipeline_log o logo src :
  log (pipeline o logo src initial_ctx) = expected_log o logo src.
Proof.
  unfold pipeline, clearRect.
  pose proof (adds_seq _ _ _ _ _ _ (adds_draw (ClearRect 0 0 (frameSize o) (totalHeight o)))
    (adds_seq _ _ _ _ _ _ (adds_when (frame_first_test o) _ _ _ (adds_drawFrame o (frameSize o)))
    (adds_seq _ _ _ _ _ _ (adds_symbol_phase o src)
    (adds_seq _ _ _ _ _ _ (adds_when (frame_last_test o) _ _ _ (adds_drawFrame o (frameSize o)))
    (adds_seq _ _ _ _ _ _ (adds_when (truthy logo) _ _ _ (adds_logo_phase o logo))
       (adds_draw_bottom_text o (frameSize o))))))) as H.
  destruct (H initial_ctx) as (_ & _ & Hl). rewrite Hl. clear H Hl.
  unfold expected_log, base_ops, logo_ops, caption_ops, caption_op,
    overlay_state, disc_op, logo_op, logo_state, symbol_op, clear_op,
    frame_ops.
  simpl.
  destruct (frame_first_test o), (frame_last_test o), (truthy logo),
    (truthy (bottomText o)); simpl; rewrite <- ?app_assoc; reflexivity.
Qed.

(** A run that reaches the canvas leaves it as the pipeline leaves a
    blank canvas of the computed size. *)
Lemma render_canvas env s d :
  reaches_canvas env s d ->
  let o := options s in
  context (canvas (render env s)) = pipeline o (logoDataUrl s) d initial_ctx /\
  width (canvas (render env s)) = frameSize o /\
  height (canvas (render env s)) = totalHeight o.
Proof.
  intros (He & Hr & Hc). cbv zeta.
  unfold render, run, generateQR. rewrite He, Hr, Hc.
  unfold pipeline, symbol_phase, logo_phase, qrX, when.
  cbn [negb]. unfold qrImg_onload, logoImg_onload.
  cbn [with_canvas on_context setQrDataUrl set_width set_height
       sl_options sl_logoDataUrl sl_frameSize sl_src
       ll_options ll_frameSize ll_src
       options logoDataUrl canvas width height context has2d].
  destruct (truthy (logoDataUrl s));
    cbn [with_canvas on_context setQrDataUrl
         ll_options ll_frameSize ll_src
         options logoDataUrl canvas width height context has2d];
    auto.
Qed.

Lemma render_log_expected env s d :
  reaches_canvas env s d ->
  render_log env s = expected_log (options s) (logoDataUrl s) d.
Proof.
  intros H. unfold render_log.
  destruct (render_canvas env s d H) as (-> & _). apply pipeline_log.
Qed.

End PhaseFacts.

(* ================================================================== *)
(** * Winding number and convex hull

    A point around which a closed polygon winds lies in the convex hull
    of the polygon's vertices: the ray to its right and the ray to its
    left both meet an edge. *)
(* ================================================================== *)

Section WindingFacts.

Variable p : point.

Lemma crossing_split a b :
  (crossing p a b + crossing_left p a b = level p b - level p a)%Z.
Proof.
  unfold crossing, crossing_left, level.
  destruct (above p a), (above p b); try reflexivity.
  - destruct (Rlt_dec (side a b p) 0); reflexivity.
  - destruct (Rlt_dec 0 (side a b p)); reflexivity.
Qed.

Lemma level_telescope tl : forall v z,
  sumZ (map (fun e => (level p (snd e) - level p (fst e))%Z)
            (combine (v :: tl) (tl ++ [z])))
  = (level p z - level p v)%Z.
Proof.
  induction tl as [|w tl IH]; intros v z; simpl.
  - lia.
  - specialize (IH w z). simpl in IH. rewrite IH. lia.
Qed.

Lemma closed_level_sum vs :
  sumZ (map (fun e => (level p (snd e) - level p (fst e))%Z) (edges vs)) = 0%Z.
Proof.
  destruct vs as [|v tl]; [reflexivity|].
  unfold edges. rewrite level_telescope. lia.
Qed.

Lemma sumZ_map_add {A} (f g : A -> Z) l :
  sumZ (map (fun e => (f e + g e)%Z) l) = (sumZ (map f l) + sumZ (map g l))%Z.
Proof. induction l as [|e l IH]; simpl; [reflexivity | rewrite IH; lia]. Qed.

Lemma sumZ_map_ext {A} (f g : A -> Z) l :
  (forall e, f e = g e) -> sumZ (map f l) = sumZ (map g l).
Proof. intros E. induction l as [|e l IH]; simpl; [reflexivity | rewrite IH, E; reflexivity]. Qed.

Lemma sumZ_nonzero {A} (f : A -> Z) l :
  sumZ (map f l) <> 0%Z -> exists e, In e l /\ f e <> 0%Z.
Proof.
  induction l as [|e l IH]; simpl; intros H; [congruence|].
  destruct (Z.eq_dec (f e) 0) as [E|E].
  - rewrite E in H. destruct IH as (e' & Hin & He'); [lia|].
    exists e'. auto.
  - exists e. auto.
Qed.

Lemma edges_in vs e : In e (edges vs) -> In (fst e) vs /\ In (snd e) vs.
Proof.
  destruct vs as [|v tl]; [intros []|]. unfold edges. destruct e as [a b].
  intros H. split.
  - apply (in_combine_l _ _ _ _ H).
  - apply in_combine_r in H. apply in_app_or in H. simpl in *.
    destruct H as [H|[H|[]]]; auto.
Qed.

(** The left-counted winding is the opposite of the right-counted one. *)
Lemma winding_left vs :
  sumZ (map (fun e => crossing_left p (fst e) (snd e)) (edges vs))
  = (- winding p vs)%Z.
Proof.
  pose proof (closed_level_sum vs) as H.
  rewrite (sumZ_map_ext _
    (fun e => (crossing p (fst e) (snd e)
               + crossing_left p (fst e) (snd e))%Z)) in H
    by (intros e; symmetry; apply crossing_split).
  rewrite sumZ_map_add in H. unfold winding. lia.
Qed.

(** An edge that goes up across the line of [p] meets it. *)
Lemma edge_up_meets a b :
  above p a = false -> above p b = true ->
  exists t, 0 <= t <= 1 /\ snd (mix t a b) = snd p /\
            0 < snd b - snd a /\
            (fst (mix t a b) - fst p) * (snd b - snd a) = side a b p.
Proof.
  unfold above. intros Ha Hb.
  destruct (Rlt_dec (snd p) (snd a)) as [|Na]; [discriminate|].
  destruct (Rlt_dec (snd p) (snd b)) as [Lb|]; [|discriminate].
  assert (HD : 0 < snd b - snd a) by lra.
  set (t := (snd b - snd p) / (snd b - snd a)).
  assert (Ht : t * (snd b - snd a) = snd b - snd p)
    by (unfold t; field; lra).
  exists t. repeat split.
  - apply Rmult_le_reg_r with (snd b - snd a); lra.
  - apply Rmult_le_reg_r with (snd b - snd a); lra.
  - simpl. replace (t * snd a + (1 - t) * snd b)
      with (snd b - t * (snd b - snd a)) by ring. lra.
  - exact HD.
  - simpl. unfold side.
    replace ((t * fst a + (1 - t) * fst b - fst p) * (snd b - snd a))
      with ((fst b - fst p) * (snd b - snd a)
            - (t * (snd b - snd a)) * (fst b - fst a)) by ring.
    rewrite Ht. ring.
Qed.

(** An edge that goes down across the line of [p] meets it. *)
Lemma edge_down_meets a b :
  above p a = true -> above p b = false ->
  exists t, 0 <= t <= 1 /\ snd (mix t a b) = snd p /\
            0 < snd a - snd b /\
            (fst (mix t a b) - fst p) * (snd a - snd b) = - side a b p.
Proof.
  unfold above. intros Ha Hb.
  destruct (Rlt_dec (snd p) (snd a)) as [La|]; [|discriminate].
  destruct (Rlt_dec (snd p) (snd b)) as [|Nb]; [discriminate|].
  assert (HD : 0 < snd a - snd b) by lra.
  set (t := (snd p - snd b) / (snd a - snd b)).
  assert (Ht : t * (snd a - snd b) = snd p - snd b)
    by (unfold t; field; lra).
  exists t. repeat split.
  - apply Rmult_le_reg_r with (snd a - snd b); lra.
  - apply Rmult_le_reg_r with (snd a - snd b); lra.
  - simpl. replace (t * snd a + (1 - t) * snd b)
      with (snd b + t * (snd a - snd b)) by ring. lra.
  - exact HD.
  - simpl. unfold side.
    replace ((t * fst a + (1 - t) * fst b - fst p) * (snd a - snd b))
      with ((fst b - fst p) * (snd a - snd b)
            - (t * (snd a - snd b)) * (fst b - fst a)) by ring.
    rewrite Ht. ring.
Qed.

(** A counted edge meets the ray to the right of [p]. *)
Lemma crossing_meets_right a b :
  crossing p a b <> 0%Z ->
  exists t, 0 <= t <= 1 /\ snd (mix t a b) = snd p /\
            fst p < fst (mix t a b).
Proof.
  unfold crossing. intros H.
  destruct (above p a) eqn:Ha, (above p b) eqn:Hb; try congruence.
  - destruct (Rlt_dec (side a b p) 0) as [Hs|]; [|congruence].
    destruct (edge_down_meets a b Ha Hb) as (t & Ht & Hy & HD & Hx).
    exists t. repeat split; try tauto.
    apply Rlt_0_minus. apply Rmult_lt_reg_r with (snd a - snd b); lra.
  - destruct (Rlt_dec 0 (side a b p)) as [Hs|]; [|congruence].
    destruct (edge_up_meets a b Ha Hb) as (t & Ht & Hy & HD & Hx).
    exists t. repeat split; try tauto.
    apply Rlt_0_minus. apply Rmult_lt_reg_r with (snd b - snd a); lra.
Qed.

(** An edge counted on the left meets the line at or left of [p]. *)
Lemma crossing_meets_left a b :
  crossing_left p a b <> 0%Z ->
  exists t, 0 <= t <= 1 /\ snd (mix t a b) = snd p /\
            fst (mix t a b) <= fst p.
Proof.
  unfold crossing_left. intros H.
  destruct (above p a) eqn:Ha, (above p b) eqn:Hb; try congruence.
  - destruct (Rlt_dec (side a b p) 0) as [|Hs]; [congruence|].
    destruct (edge_down_meets a b Ha Hb) as (t & Ht & Hy & HD & Hx).
    exists t. repeat split; try tauto.
    apply Rminus_le. apply Rmult_le_reg_r with (snd a - snd b); lra.
  - destruct (Rlt_dec 0 (side a b p)) as [|Hs]; [congruence|].
    destruct (edge_up_meets a b Ha Hb) as (t & Ht & Hy & HD & Hx).
    exists t. repeat split; try tauto.
    apply Rminus_le. apply Rmult_le_reg_r with (snd b - snd a); lra.
Qed.

Lemma hull_edge vs e t :
  In e (edges vs) -> 0 <= t <= 1 -> hull vs (mix t (fst e) (snd e)).
Proof.
  intros He Ht. destruct (edges_in vs e He) as [Ha Hb].
  apply hull_mix; auto using hull_vertex.
Qed.

(** Between two points of the hull on its line, [p] is in the hull. *)
Lemma hull_between vs q1 q2 :
  hull vs q1 -> hull vs q2 ->
  snd q1 = snd p -> snd q2 = snd p ->
  fst q2 <= fst p -> fst p < fst q1 ->
  hull vs p.
Proof.
  intros H1 H2 Hy1 Hy2 Hx2 Hx1.
  set (u := (fst p - fst q2) / (fst q1 - fst q2)).
  assert (Hu : u * (fst q1 - fst q2) = fst p - fst q2)
    by (unfold u; field; lra).
  assert (Hp : p = mix u q1 q2).
  { destruct p as [px py]. unfold mix. simpl in *. f_equal.
    - replace (u * fst q1 + (1 - u) * fst q2)
        with (fst q2 + u * (fst q1 - fst q2)) by ring. lra.
    - rewrite Hy1, Hy2. ring. }
  rewrite Hp. apply hull_mix; auto. split.
  - apply Rmult_le_reg_r with (fst q1 - fst q2); lra.
  - apply Rmult_le_reg_r with (fst q1 - fst q2); lra.
Qed.

Lemma winding_hull vs : winding p vs <> 0%Z -> hull vs p.
Proof.
  intros H.
  assert (Hl : sumZ (map (fun e => crossing_left p (fst e) (snd e))
                         (edges vs)) <> 0%Z)
    by (rewrite winding_left; lia).
  apply sumZ_nonzero in H. destruct H as (e1 & He1 & Hc1).
  apply sumZ_nonzero in Hl. destruct Hl as (e2 & He2 & Hc2).
  destruct (crossing_meets_right _ _ Hc1) as (t1 & Ht1 & Hy1 & Hx1).
  destruct (crossing_meets_left _ _ Hc2) as (t2 & Ht2 & Hy2 & Hx2).
  apply (hull_between vs (mix t1 (fst e1) (snd e1))
                         (mix t2 (fst e2) (snd e2)));
    auto using hull_edge.
Qed.

End WindingFacts.

Lemma hull_incl vs ws :
  (forall v, In v vs -> hull ws v) -> forall q, hull vs q -> hull ws q.
Proof.
  intros Hv q H. induction H as [v Hin | a b t _ IHa _ IHb Ht].
  - auto.
  - apply hull_mix; auto.
Qed.

(* ================================================================== *)
(** * The numeric loops end by their own test *)
(* ================================================================== *)

Section LoopFacts.

Lemma trips_zero lo hi step :
  0 < step -> hi < lo -> trips lo hi step = O.
Proof.
  intros Hs Hlt. unfold trips.
  set (r := (hi - lo) / step).
  assert (Hr : r < 0).
  { unfold r. apply Rmult_lt_reg_r with step; [lra|].
    unfold Rdiv. rewrite Rmult_assoc, Rinv_l by lra. lra. }
  destruct (archimed r) as [_ Hup].
  assert (Hz : (up r < 1)%Z) by (apply lt_IZR; lra).
  destruct (up r); try reflexivity; lia.
Qed.

Lemma trips_succ lo hi step :
  0 < step -> lo <= hi -> trips lo hi step = S (trips (lo + step) hi step).
Proof.
  intros Hs Hle. unfold trips.
  set (r := (hi - (lo + step)) / step).
  assert (Hr : (hi - lo) / step = r + 1) by (unfold r; field; lra).
  assert (Hr0 : -1 <= r).
  { apply Rmult_le_reg_r with step; [lra|].
    unfold r, Rdiv. rewrite Rmult_assoc, Rinv_l by lra. lra. }
  destruct (archimed r) as [Hup1 Hup2].
  assert (Hz : (0 <= up r)%Z).
  { assert (-1 < up r)%Z by (apply lt_IZR; lra). lia. }
  rewrite Hr.
  replace (up (r + 1)) with (up r + 1)%Z.
  - rewrite Z2Nat.inj_add by lia. simpl. lia.
  - apply tech_up; rewrite plus_IZR; lra.
Qed.

Lemma trips_pos lo hi step :
  0 < step -> trips lo hi step <> O -> lo <= hi.
Proof.
  intros Hs Hn. destruct (Rle_dec lo hi) as [|N]; [assumption|].
  exfalso. apply Hn. apply trips_zero; lra.
Qed.

(** More fuel than [trips] changes nothing: the upward loop stops
    because its test fails. *)
Lemma for_up_fuel step bound body :
  0 < step ->
  forall n x k c,
    n = trips x bound step ->
    for_up (n + k) x bound step body c = for_up n x bound step body c.
Proof.
  intros Hs. induction n as [|n IH]; intros x k c Hn.
  - destruct k as [|k]; [reflexivity|]. simpl.
    destruct (Rle_dec x bound) as [Hle|]; [|reflexivity].
    rewrite (trips_succ x bound step Hs Hle) in Hn. discriminate.
  - simpl.
    assert (Hle : x <= bound)
      by (apply (trips_pos x bound step Hs); rewrite <- Hn; discriminate).
    destruct (Rle_dec x bound) as [_|N]; [|contradiction].
    unfold andThen. apply IH.
    rewrite (trips_succ x bound step Hs Hle) in Hn. congruence.
Qed.

(** The same for the downward loop. *)
Lemma for_down_fuel step bound body :
  0 < step ->
  forall n x k c,
    n = trips bound x step ->
    for_down (n + k) x bound step body c = for_down n x bound step body c.
Proof.
  intros Hs. induction n as [|n IH]; intros x k c Hn.
  - destruct k as [|k]; [reflexivity|]. simpl.
    destruct (Rge_dec x bound) as [Hge|]; [|reflexivity].
    assert (Hle : bound <= x) by lra.
    rewrite (trips_succ bound x step Hs Hle) in Hn. discriminate.
  - simpl.
    assert (Hle : bound <= x)
      by (apply (trips_pos bound x step Hs); rewrite <- Hn; discriminate).
    destruct (Rge_dec x bound) as [_|N]; [|lra].
    unfold andThen. apply IH.
    assert (E : trips bound x step = S (trips bound (x - step) step)).
    { destruct (Rle_dec (bound + step) x) as [H1|H1].
      - unfold trips.
        replace ((x - bound) / step) with ((x - step - bound) / step + 1)
          by (field; lra).
        set (r := (x - step - bound) / step).
        assert (Hr0 : 0 <= r).
        { apply Rmult_le_reg_r with step; [lra|].
          unfold r, Rdiv. rewrite Rmult_assoc, Rinv_l by lra. lra. }
        destruct (archimed r) as [Hup1 Hup2].
        assert (Hz : (0 <= up r)%Z).
        { assert (0 < up r)%Z by (apply lt_IZR; lra). lia. }
        replace (up (r + 1)) with (up r + 1)%Z.
        + rewrite Z2Nat.inj_add by lia. simpl. lia.
        + apply tech_up; rewrite plus_IZR; lra.
      - rewrite (trips_zero bound (x - step) step) by lra.
        rewrite (trips_succ bound x step Hs Hle).
        rewrite (trips_zero (bound + step) x step) by lra. reflexivity. }
    congruence.
Qed.

End LoopFacts.

(* ================================================================== *)
(** * What the frame styles draw *)
(* ================================================================== *)

Section FrameFacts.

(** The wavy frame is one fill, in the frame colour. *)
Lemma wavy_ops o fs :
  frameType o = FrameWavy ->
  exists pth, forall s0,
    ops_of (drawFrame o fs) s0 =
    [ {| kind := Fill pth; st := st_fillStyle (Color (frameColor o)) s0 |} ].
Proof.
  intros E. unfold ops_of, drawFrame. rewrite E.
  set (pad := fs * 0.1). set (fw := fs - pad * 2).
  unfold andThen.
  destruct (for_up_path (trips pad (pad + fw) 10) pad (pad + fw) 10
    (fun x => lineTo x (pad + 5 * sin ((x - pad) * 0.1) + 5))
    (lineTo_path _ _)) as [f1 H1].
  destruct (for_up_path (trips pad (pad + fw) 10) pad (pad + fw) 10
    (fun y => lineTo (pad + fw - 5 * sin ((y - pad) * 0.1) - 5) y)
    (lineTo_path _ _)) as [f2 H2].
  destruct (for_down_path (trips pad (pad + fw) 10) (pad + fw) pad 10
    (fun x => lineTo x (pad + fw - 5 * sin ((x - pad) * 0.1) - 5))
    (lineTo_path _ _)) as [f3 H3].
  destruct (for_down_path (trips pad (pad + fw) 10) (pad + fw) pad 10
    (fun y => lineTo (pad + 5 * sin ((y - pad) * 0.1) + 5) y)
    (lineTo_path _ _)) as [f4 H4].
  eexists. intros s0.
  rewrite !H1, !H2, !H3, !H4. simpl. reflexivity.
Qed.


(** No frame operation is clipped more, or less, than the state it
    starts in. *)
Lemma frame_ops_clip o fs s0 op :
  In op (ops_of (drawFrame o fs) s0) -> clip (st op) = clip s0.
Proof.
  destruct (frameType o) eqn:E;
    try (unfold ops_of, drawFrame; rewrite E; simpl;
         intuition (subst; reflexivity)).
  destruct (wavy_ops o fs E) as [pth H]. rewrite H. simpl.
  intuition (subst; reflexivity).
Qed.




End FrameFacts.

(* ================================================================== *)
(** * The clip shapes *)
(* ================================================================== *)

Section ShapeFacts.

Lemma winding_single p a : winding p [a] = 0%Z.
Proof.
  unfold winding, edges, crossing. simpl.
  destruct (above p a); reflexivity.
Qed.

Lemma shape_path_square o x y sz :
  shape o = ShapeSquare -> shape_path o x y sz = [Rect x y sz sz].
Proof. intros E. unfold shape_path, applyQRShape. rewrite E. reflexivity. Qed.

Lemma shape_path_rounded o x y sz :
  shape o = ShapeRounded ->
  shape_path o x y sz = [RoundRect x y sz sz (sz * 0.1)].
Proof. intros E. unfold shape_path, applyQRShape. rewrite E. reflexivity. Qed.

Lemma shape_path_circle o x y sz :
  shape o = ShapeCircle ->
  shape_path o x y sz = [Arc (x + sz / 2) (y + sz / 2) (sz / 2) 0 (2 * PI)].
Proof. intros E. unfold shape_path, applyQRShape. rewrite E. reflexivity. Qed.

(** The point the loop computes for index [i] is vertex [i]. *)
Lemma hex_point x y sz i :
  LineTo (x + sz / 2 + sz / 2 * cos (INR i * PI / 3))
         (y + sz / 2 + sz / 2 * sin (INR i * PI / 3))
  = LineTo (fst (hex_vertex x y sz i)) (snd (hex_vertex x y sz i)).
Proof.
  unfold hex_vertex. cbn [fst snd].
  replace (INR i * PI / 3) with (INR i * (PI / 3)) by field. reflexivity.
Qed.

(** The starting point of the path is vertex 0, at angle 0. *)
Lemma hex_start x y sz :
  MoveTo (x + sz / 2 + sz / 2) (y + sz / 2)
  = MoveTo (fst (hex_vertex x y sz 0)) (snd (hex_vertex x y sz 0)).
Proof.
  unfold hex_vertex. cbn [fst snd INR].
  rewrite Rmult_0_l, cos_0, sin_0. f_equal; ring.
Qed.

Lemma shape_path_hexagon o x y sz :
  shape o = ShapeHexagon -> shape_path o x y sz = hexagon_path x y sz.
Proof.
  intros E. unfold shape_path, applyQRShape. rewrite E.
  unfold hexagon_path.
  cbn -[INR cos sin PI hex_vertex].
  rewrite hex_start, !hex_point. reflexivity.
Qed.

Lemma hex_vertex_6 x y sz : hex_vertex x y sz 6 = hex_vertex x y sz 0.
Proof.
  unfold hex_vertex.
  replace (INR 6 * (PI / 3)) with (2 * PI) by (simpl; field).
  replace (INR 0 * (PI / 3)) with 0 by (simpl; ring).
  rewrite cos_2PI, sin_2PI, cos_0, sin_0. reflexivity.
Qed.

(** Every vertex lies on the circle of radius [sz / 2] about the centre
    of the region. *)
Lemma hex_on_circle x y sz i :
  (fst (hex_vertex x y sz i) - (x + sz / 2))
    * (fst (hex_vertex x y sz i) - (x + sz / 2))
  + (snd (hex_vertex x y sz i) - (y + sz / 2))
    * (snd (hex_vertex x y sz i) - (y + sz / 2))
  = sz / 2 * (sz / 2).
Proof.
  unfold hex_vertex. cbn [fst snd].
  set (a := INR i * (PI / 3)).
  pose proof (sin2_cos2 a) as H. unfold Rsqr in H.
  replace (sz / 2 * (sz / 2)) with (sz / 2 * (sz / 2) * 1) by ring.
  rewrite <- H. ring.
Qed.

(** Consecutive vertices are one circumradius apart: the hexagon is
    regular. *)
Lemma hex_side x y sz i :
  (fst (hex_vertex x y sz (S i)) - fst (hex_vertex x y sz i))
    * (fst (hex_vertex x y sz (S i)) - fst (hex_vertex x y sz i))
  + (snd (hex_vertex x y sz (S i)) - snd (hex_vertex x y sz i))
    * (snd (hex_vertex x y sz (S i)) - snd (hex_vertex x y sz i))
  = sz / 2 * (sz / 2).
Proof.
  unfold hex_vertex. cbn [fst snd].
  rewrite S_INR.
  set (a := INR i * (PI / 3)).
  replace ((INR i + 1) * (PI / 3)) with (a + PI / 3) by (unfold a; ring).
  rewrite cos_plus, sin_plus, cos_PI3, sin_PI3.
  pose proof (sin2_cos2 a) as H. unfold Rsqr in H.
  assert (H3 : sqrt 3 * sqrt 3 = 3) by (apply sqrt_sqrt; lra).
  set (r := sz / 2).
  replace (r * r) with (r * r * (sin a * sin a + cos a * cos a))
    by (rewrite H; ring).
  set (q := sqrt 3) in *.
  replace ((x + r + r * (cos a * (1 / 2) - sin a * (q / 2)) - (x + r + r * cos a)) *
           (x + r + r * (cos a * (1 / 2) - sin a * (q / 2)) - (x + r + r * cos a)) +
           (y + r + r * (sin a * (1 / 2) + cos a * (q / 2)) - (y + r + r * sin a)) *
           (y + r + r * (sin a * (1 / 2) + cos a * (q / 2)) - (y + r + r * sin a)))
    with (r * r * ((1 / 4 + (q * q) / 4) * (sin a * sin a + cos a * cos a)))
    by field.
  rewrite H3. field.
Qed.

Lemma hexagon_vertices x y sz v :
  In v [hex_vertex x y sz 0; hex_vertex x y sz 1; hex_vertex x y sz 2;
        hex_vertex x y sz 3; hex_vertex x y sz 4; hex_vertex x y sz 5;
        hex_vertex x y sz 6] ->
  In v (hexagon x y sz).
Proof.
  unfold hexagon. cbn [map List.seq]. rewrite hex_vertex_6. simpl.
  intuition.
Qed.

(** A point inside the hexagon path is in the hull of the six vertices. *)
Lemma inside_hexagon_path x y sz p :
  inside_path (hexagon_path x y sz) p -> hull (hexagon x y sz) p.
Proof.
  intros (f & Hin & Hf).
  unfold hexagon_path, figures in Hin.
  cbn -[hex_vertex] in Hin.
  destruct Hin as [<-|[<-|[]]]; cbn [inside_figure] in Hf.
  - apply winding_hull in Hf. revert Hf. apply hull_incl.
    intros v Hv. apply hull_vertex.
    apply hexagon_vertices.
    rewrite <- !surjective_pairing in Hv. exact Hv.
  - rewrite winding_single in Hf. congruence.
Qed.

Lemma inside_rect_path x y w h p :
  inside_path [Rect x y w h] p -> in_rect x y w h p.
Proof.
  intros (f & Hin & Hf). unfold figures in Hin. simpl in Hin.
  destruct Hin as [<-|[<-|[]]]; simpl in Hf.
  - exact Hf.
  - rewrite winding_single in Hf. congruence.
Qed.

Lemma inside_round_rect_path x y w h r p :
  inside_path [RoundRect x y w h r] p -> in_round_rect x y w h r p.
Proof.
  intros (f & Hin & Hf). unfold figures in Hin. simpl in Hin.
  destruct Hin as [<-|[<-|[]]]; simpl in Hf.
  - exact Hf.
  - rewrite winding_single in Hf. congruence.
Qed.

Lemma inside_arc_path x y r a0 a1 p :
  inside_path [Arc x y r a0 a1] p -> in_disc x y r p.
Proof.
  intros (f & Hin & Hf). unfold figures in Hin. simpl in Hin.
  destruct Hin as [<-|[]]. simpl in Hf. tauto.
Qed.

Lemma sq_bound a r : 0 <= r -> a * a <= r * r -> - r <= a <= r.
Proof. intros Hr H. split; apply Rnot_lt_le; intros K; nra. Qed.

(** The disc on the centre of a square region, of radius half its side,
    is inside the region... *)
Lemma disc_in_region x y sz p :
  0 <= sz -> in_disc (x + sz / 2) (y + sz / 2) (sz / 2) p ->
  in_rect x y sz sz p.
Proof.
  unfold in_disc, in_rect. destruct p as [px py]. cbn [fst snd].
  intros Hs H.
  pose proof (Rle_0_sqr (px - (x + sz / 2))) as Hx.
  pose proof (Rle_0_sqr (py - (y + sz / 2))) as Hy.
  unfold Rsqr in Hx, Hy.
  destruct (sq_bound (px - (x + sz / 2)) (sz / 2)); [lra | lra |].
  destruct (sq_bound (py - (y + sz / 2)) (sz / 2)); [lra | lra |].
  lra.
Qed.

(** ... and touches the middle of each of its sides. *)
Lemma disc_touches_region x y sz :
  in_disc (x + sz / 2) (y + sz / 2) (sz / 2) (x, y + sz / 2) /\
  in_disc (x + sz / 2) (y + sz / 2) (sz / 2) (x + sz, y + sz / 2) /\
  in_disc (x + sz / 2) (y + sz / 2) (sz / 2) (x + sz / 2, y) /\
  in_disc (x + sz / 2) (y + sz / 2) (sz / 2) (x + sz / 2, y + sz).
Proof. unfold in_disc. cbn [fst snd]. repeat split; nra. Qed.

End ShapeFacts.

(* ================================================================== *)
(** * The claims *)
(* ================================================================== *)

Lemma truthy_true s : s <> EmptyString -> truthy s = true.
Proof. destruct s; [congruence | reflexivity]. Qed.

Lemma truthy_false s : s = EmptyString -> truthy s = false.
Proof. intros ->. reflexivity. Qed.

Lemma sample_reaches o logo :
  text o = text default_options ->
  errorCorrectionLevel o = M ->
  reaches_canvas sample_env (mounted o logo) sample_src.
Proof.
  intros Ht He. unfold reaches_canvas, sample_env, mounted.
  cbn [QRCode_toDataURL options qrOptions qr_errorCorrectionLevel canvasRef
       canvas has2d].
  rewrite Ht, He. split; [vm_compute; reflexivity | split; reflexivity].
Qed.

(** C1. The canvas is [frameSize] wide and [totalHeight] high, where
    [frameSize] is [size + 60] with a frame and [size] without, and
    [totalHeight] is [frameSize + 40] with a caption and [frameSize]
    without. *)
Theorem C1_canvas_dimensions env s d :
  reaches_canvas env s d ->
  let o := options s in
  width (canvas (render env s)) = frameSize o /\
  height (canvas (render env s)) = totalHeight o /\
  (frameType o <> FrameNone -> frameSize o = size o + 60) /\
  (frameType o = FrameNone -> frameSize o = size o) /\
  (bottomText o <> EmptyString -> totalHeight o = frameSize o + 40) /\
  (bottomText o = EmptyString -> totalHeight o = frameSize o).
Proof.
  intros H o. destruct (render_canvas env s d H) as (_ & Hw & Hh).
  repeat split; auto.
  - intros Hn. unfold frameSize, extraSpace.
    destruct (frameType o); simpl; congruence.
  - intros Hn. unfold frameSize, extraSpace. rewrite Hn. simpl. ring.
  - intros Hn. unfold totalHeight, textSpace.
    rewrite (truthy_true _ Hn). reflexivity.
  - intros Hn. unfold totalHeight, textSpace.
    rewrite (truthy_false _ Hn). ring.
Qed.

Lemma C1_witness :
  width (canvas (render sample_env (mounted framed_options EmptyString))) = 300 + 60 /\
  height (canvas (render sample_env (mounted framed_options EmptyString)))
    = 300 + 60 + 40.
Proof.
  destruct (C1_canvas_dimensions sample_env (mounted framed_options EmptyString)
              sample_src (sample_reaches framed_options EmptyString eq_refl eq_refl))
    as (Hw & Hh & _).
  split; [exact Hw | exact Hh].
Defined.

Lemma framed_reaches :
  reaches_canvas sample_env (mounted framed_options EmptyString) sample_src.
Proof. apply sample_reaches; reflexivity. Qed.



(* ================================================================== *)
(** * Runs in which an image may fail to decode *)
(* ================================================================== *)

Section RunFacts.

Variable env : Env.
Variable decodes : string -> bool.

(** The state a run that reaches the canvas ends in, whichever images
    decode. *)
Lemma run_state s d :
  reaches_canvas env s d ->
  let cv := {| width := frameSize (options s);
               height := totalHeight (options s);
               has2d := has2d (canvas s);
               context := run_pipeline decodes (options s) (logoDataUrl s) d
                            initial_ctx |} in
  run env decodes s =
  {| options := options s;
     qrDataUrl := if publishes decodes (logoDataUrl s) d
                  then canvas_toDataURL env cv else qrDataUrl s;
     logoFile := logoFile s;
     logoDataUrl := logoDataUrl s;
     canvasRef := canvasRef s;
     canvas := cv;
     toasts := toasts s;
     console := console s |}.
Proof.
  intros (He & Hr & Hc). cbv zeta.
  unfold run, generateQR. rewrite He, Hr, Hc.
  cbn [negb sl_src]. unfold publishes, run_pipeline.
  destruct (decodes d).
  - unfold qrImg_onload, logoImg_onload.
    cbn [sl_options sl_logoDataUrl sl_frameSize sl_src
         with_canvas logoDataUrl].
    unfold symbol_phase, logo_phase, qrX, when.
    destruct (truthy (logoDataUrl s)); cbn [negb orb andb ll_src];
      [destruct (decodes (logoDataUrl s))|];
      unfold setQrDataUrl, with_canvas, on_context, set_width, set_height;
      cbn [ll_options ll_frameSize ll_src
           options logoDataUrl logoFile qrDataUrl canvasRef toasts console
           canvas width height context has2d];
      rewrite ?Hr, ?Hc; reflexivity.
  - unfold when, with_canvas, on_context, set_width, set_height.
    cbn [andb options logoDataUrl logoFile qrDataUrl canvasRef toasts console
         canvas width height context has2d].
    rewrite ?Hr, ?Hc; reflexivity.
Qed.

(** The log of a run's calls, started on a blank canvas. *)
Lemma run_pipeline_log o logo src :
  log (run_pipeline decodes o logo src initial_ctx)
  = run_ops decodes o logo src.
Proof.
  unfold run_pipeline, clearRect.
  pose proof (adds_seq _ _ _ _ _ _ (adds_draw (ClearRect 0 0 (frameSize o) (totalHeight o)))
    (adds_seq _ _ _ _ _ _ (adds_when (frame_first_test o) _ _ _ (adds_drawFrame o (frameSize o)))
    (adds_when (decodes src) _ _ _
    (adds_seq _ _ _ _ _ _ (adds_symbol_phase o src)
    (adds_seq _ _ _ _ _ _ (adds_when (frame_last_test o) _ _ _ (adds_drawFrame o (frameSize o)))
    (adds_when (negb (truthy logo) || decodes logo) _ _ _
    (adds_seq _ _ _ _ _ _ (adds_when (truthy logo) _ _ _ (adds_logo_phase o logo))
       (adds_draw_bottom_text o (frameSize o))))))))) as H.
  destruct (H initial_ctx) as (_ & _ & Hl). rewrite Hl. clear H Hl.
  unfold run_ops, logo_ops, caption_ops, caption_op,
    overlay_state, disc_op, logo_op, logo_state, symbol_op, clear_op,
    frame_ops.
  simpl.
  destruct (frame_first_test o), (frame_last_test o), (decodes src),
    (truthy logo), (decodes logo), (truthy (bottomText o));
    simpl; rewrite <- ?app_assoc; reflexivity.
Qed.

Lemma run_log_expected s d :
  reaches_canvas env s d ->
  run_log env decodes s = run_ops decodes (options s) (logoDataUrl s) d.
Proof.
  intros H. unfold run_log. rewrite (run_state s d H).
  cbn [canvas context]. apply run_pipeline_log.
Qed.

(** When the symbol and the logo, if any, decode, the run is the one
    in which every image decodes. *)
Lemma run_decoded s d :
  reaches_canvas env s d ->
  decodes d = true ->
  logo_loads decodes (logoDataUrl s) ->
  run env decodes s = render env s.
Proof.
  intros (He & Hr & Hc) Hd Hl.
  unfold render, run, generateQR. rewrite He, Hr, Hc.
  cbn [negb sl_src]. rewrite Hd.
  unfold qrImg_onload.
  cbn [sl_options sl_logoDataUrl sl_frameSize sl_src with_canvas logoDataUrl].
  destruct (truthy (logoDataUrl s)) eqn:Ht; [|reflexivity].
  cbn [ll_src]. destruct Hl as [Hl|Hl].
  - rewrite Hl in Ht. discriminate.
  - rewrite Hl. reflexivity.
Qed.

(** With a logo that does not decode, the run leaves the clearing, the
    frame and the symbol in the log, and nothing else. *)
Lemma run_ops_stalled o logo src :
  decodes src = true ->
  logo <> EmptyString ->
  decodes logo = false ->
  run_ops decodes o logo src = base_ops o src.
Proof.
  intros Hd Hl Hn. unfold run_ops, base_ops.
  rewrite Hd, Hn, (truthy_true _ Hl). cbn [negb orb].
  rewrite app_nil_r. reflexivity.
Qed.



Lemma publishes_stalled logo src :
  decodes src = false \/ (logo <> EmptyString /\ decodes logo = false) ->
  publishes decodes logo src = false.
Proof.
  unfold publishes. intros [-> | [Hl ->]]; [reflexivity|].
  rewrite (truthy_true _ Hl). apply andb_false_r.
Qed.

End RunFacts.







Lemma logo_reaches :
  reaches_canvas sample_env (mounted default_options sample_logo) sample_src.
Proof. apply sample_reaches; reflexivity. Qed.




(** What the symbol draw covers lies inside the clip path. *)
Lemma symbol_covers_inside pth src x y w h s0 p :
  covers {| kind := DrawImage src x y w h; st := add_clip pth s0 |} p ->
  inside_path pth p.
Proof.
  intros [_ Hc]. cbn [st clip add_clip] in Hc.
  inversion Hc; assumption.
Qed.

(** C5. In every run that draws the symbol, the symbol is drawn over
    the region of corner ([qrX], [qrX]) and side [size], under a clip path
    that is: for [square], the region; for [rounded], the region with
    corners of radius a tenth of its side; for [circle], the circle
    inscribed in the region; for [hexagon], the regular hexagon of
    circumradius half the side, vertex 0 at angle 0 and one vertex every 60
    degrees.  The symbol image covers no point outside that shape: none
    outside the inscribed disc, none outside the convex hull of the six
    vertices. *)
Theorem C5_shape_clip env decodes s d :
  reaches_canvas env s d ->
  decodes d = true ->
  let o := options s in
  let logo := logoDataUrl s in
  let x := qrX o in
  let sz := size o in
  0 <= sz ->
  exists op,
    run_log env decodes s =
      (clear_op o :: (if frame_first_test o then frame_ops o else []))
      ++ op ::
      (if frame_last_test o then frame_ops o else [])
      ++ (if negb (truthy logo) || decodes logo
          then logo_ops o logo ++ caption_ops o logo else []) /\
    kind op = DrawImage d x x sz sz /\
    match shape o with
    | ShapeSquare =>
        clip (st op) = [[Rect x x sz sz]] /\
        forall p, covers op p -> in_rect x x sz sz p
    | ShapeRounded =>
        clip (st op) = [[RoundRect x x sz sz (sz * 0.1)]] /\
        forall p, covers op p -> in_round_rect x x sz sz (sz * 0.1) p
    | ShapeCircle =>
        clip (st op) = [[Arc (x + sz / 2) (x + sz / 2) (sz / 2) 0 (2 * PI)]] /\
        (forall p, covers op p ->
                   in_disc (x + sz / 2) (x + sz / 2) (sz / 2) p) /\
        (forall p, in_disc (x + sz / 2) (x + sz / 2) (sz / 2) p ->
                   in_rect x x sz sz p) /\
        in_disc (x + sz / 2) (x + sz / 2) (sz / 2) (x, x + sz / 2) /\
        in_disc (x + sz / 2) (x + sz / 2) (sz / 2) (x + sz, x + sz / 2) /\
        in_disc (x + sz / 2) (x + sz / 2) (sz / 2) (x + sz / 2, x) /\
        in_disc (x + sz / 2) (x + sz / 2) (sz / 2) (x + sz / 2, x + sz)
    | ShapeHexagon =>
        clip (st op) = [hexagon_path x x sz] /\
        (forall p, covers op p -> hull (hexagon x x sz) p) /\
        hex_vertex x x sz 0 = (x + sz / 2 + sz / 2, x + sz / 2) /\
        (forall i,
           (fst (hex_vertex x x sz i) - (x + sz / 2))
             * (fst (hex_vertex x x sz i) - (x + sz / 2))
           + (snd (hex_vertex x x sz i) - (x + sz / 2))
             * (snd (hex_vertex x x sz i) - (x + sz / 2))
           = sz / 2 * (sz / 2)) /\
        (forall i,
           (fst (hex_vertex x x sz (S i)) - fst (hex_vertex x x sz i))
             * (fst (hex_vertex x x sz (S i)) - fst (hex_vertex x x sz i))
           + (snd (hex_vertex x x sz (S i)) - snd (hex_vertex x x sz i))
             * (snd (hex_vertex x x sz (S i)) - snd (hex_vertex x x sz i))
           = sz / 2 * (sz / 2))
    end.
Proof.
  intros H Hd o logo x sz Hsz.
  exists (symbol_op o d).
  split; [|split; [reflexivity|]].
  { rewrite (run_log_expected env decodes s d H). fold o logo.
    unfold run_ops. rewrite Hd. reflexivity. }
  unfold symbol_op. fold x sz. cbn [st clip add_clip default_state].
  destruct (shape o) eqn:E.
  - rewrite (shape_path_square o x x sz E). split; [reflexivity|].
    intros p Hp. apply inside_rect_path.
    exact (symbol_covers_inside _ _ _ _ _ _ _ _ Hp).
  - rewrite (shape_path_rounded o x x sz E). split; [reflexivity|].
    intros p Hp. apply inside_round_rect_path.
    exact (symbol_covers_inside _ _ _ _ _ _ _ _ Hp).
  - rewrite (shape_path_circle o x x sz E). split; [reflexivity|].
    split.
    { intros p Hp. apply (inside_arc_path _ _ _ 0 (2 * PI)).
      exact (symbol_covers_inside _ _ _ _ _ _ _ _ Hp). }
    split; [intros p; apply disc_in_region; exact Hsz|].
    apply disc_touches_region.
  - rewrite (shape_path_hexagon o x x sz E). split; [reflexivity|].
    split.
    { intros p Hp. apply inside_hexagon_path.
      exact (symbol_covers_inside _ _ _ _ _ _ _ _ Hp). }
    split.
    { unfold hex_vertex. cbn [INR].
      rewrite Rmult_0_l, cos_0, sin_0. f_equal; ring. }
    split; [apply hex_on_circle | apply hex_side].
Qed.

Lemma C5_witness :
  let o := with_shape ShapeHexagon default_options in
  exists op,
    In op (run_log sample_env sample_decodes (mounted o EmptyString)) /\
    kind op = DrawImage sample_src (qrX o) (qrX o) 300 300 /\
    clip (st op) = [hexagon_path (qrX o) (qrX o) 300] /\
    forall p, covers op p -> hull (hexagon (qrX o) (qrX o) 300) p.
Proof.
  intros o.
  assert (Hs : 0 <= size o) by (cbn; lra).
  destruct (C5_shape_clip sample_env sample_decodes (mounted o EmptyString)
              sample_src (sample_reaches o EmptyString eq_refl eq_refl)
              eq_refl Hs)
    as (op & Hlog & Hk & Hc & Hh & _).
  exists op. split; [|split; [exact Hk | split; [exact Hc | exact Hh]]].
  rewrite Hlog. apply in_or_app. right. left. reflexivity.
Defined.

(** C6. When the encoder rejects the payload, the run shows the failure
    notification and stops there: the canvas is not touched and the image
    produced by an earlier run stays as it was. *)
Theorem C6_encoding_failure env s :
  QRCode_toDataURL env (text (options s)) (qrOptions (options s)) = None ->
  generateQR env s = (render env s, None) /\
  render env s =
    show_toast (toast_error "Failed to generate QR code")
      (console_error "Error generating QR code:" s) /\
  toasts (render env s) =
    toasts s ++ [toast_error "Failed to generate QR code"] /\
  canvas (render env s) = canvas s /\
  qrDataUrl (render env s) = qrDataUrl s /\
  options (render env s) = options s /\
  logoDataUrl (render env s) = logoDataUrl s.
Proof.
  intros H. unfold render, run, generateQR. rewrite H. repeat split.
Qed.

Lemma C6_witness :
  let s := setQrDataUrl "data:image/png;base64,EARLIER"
             (mounted (with_text (payload 3000) default_options) EmptyString) in
  toasts (render sample_env s) = [toast_error "Failed to generate QR code"] /\
  canvas (render sample_env s) = canvas s /\
  qrDataUrl (render sample_env s) = "data:image/png;base64,EARLIER".
Proof.
  intros s.
  assert (H : QRCode_toDataURL sample_env (text (options s))
                (qrOptions (options s)) = None)
    by (vm_compute; reflexivity).
  destruct (C6_encoding_failure sample_env s H) as (_ & _ & Ht & Hc & Hq & _).
  split; [exact Ht | split; [exact Hc | exact Hq]].
Defined.

(** C7. A logo file of more than 5 MB (5 * 1024 * 1024 bytes) is
    refused: the size-limit notification is shown and the logo data is left
    as it was, so unset if it was unset.  A file within the limit is
    accepted: the logo data becomes the file's contents and the success
    notification is shown. *)
Theorem C7_logo_upload env f s :
  ((file_size f > 5 * 1024 * 1024)%Z ->
   upload env (Some f) s =
     show_toast (toast_error "Logo file size must be less than 5MB") s /\
   handleLogoUpload (Some f) s = (upload env (Some f) s, None) /\
   logoDataUrl (upload env (Some f) s) = logoDataUrl s /\
   logoFile (upload env (Some f) s) = logoFile s /\
   (logoDataUrl s = EmptyString -> logoDataUrl (upload env (Some f) s) = EmptyString)) /\
  ((file_size f <= 5 * 1024 * 1024)%Z ->
   logoDataUrl (upload env (Some f) s) = readAsDataURL env f /\
   logoFile (upload env (Some f) s) = Some f /\
   toasts (upload env (Some f) s) =
     toasts s ++ [toast_success "Logo uploaded successfully!"]).
Proof.
  unfold upload, handleLogoUpload. split; intros H.
  - replace (file_size f >? 5 * 1024 * 1024)%Z with true
      by (symmetry; apply Z.gtb_lt; lia).
    repeat split. intros E. exact E.
  - replace (file_size f >? 5 * 1024 * 1024)%Z with false
      by (symmetry; rewrite Z.gtb_ltb; apply Z.ltb_ge; lia).
    repeat split.
Qed.

Lemma C7_witness :
  let big := {| file_name := "big.png"; file_size := 6 * 1024 * 1024 |} in
  let small := {| file_name := "small.png"; file_size := 4 * 1024 * 1024 |} in
  let s := mounted default_options EmptyString in
  (logoDataUrl (upload sample_env (Some big) s) = EmptyString /\
   toasts (upload sample_env (Some big) s) =
     [toast_error "Logo file size must be less than 5MB"]) /\
  (logoDataUrl (upload sample_env (Some small) s) =
     "data:image/*;base64,small.png" /\
   toasts (upload sample_env (Some small) s) =
     [toast_success "Logo uploaded successfully!"]).
Proof.
  intros big small s. split.
  - destruct (C7_logo_upload sample_env big s) as [Hbig _].
    destruct Hbig as (Hu & _ & _ & _ & He); [reflexivity|].
    split; [apply He; reflexivity | rewrite Hu; reflexivity].
  - destruct (C7_logo_upload sample_env small s) as [_ Hsmall].
    destruct Hsmall as (Hd & _ & Ht); [discriminate|].
    split; [exact Hd | exact Ht].
Defined.

Lemma frame_ops_unclipped o op : In op (frame_ops o) -> clip (st op) = [].
Proof. intros H. apply frame_ops_clip in H. exact H. Qed.

Lemma overlay_unclipped o logo op :
  In op (logo_ops o logo ++ caption_ops o logo) -> clip (st op) = [].
Proof.
  unfold logo_ops, caption_ops, overlay_state.
  destruct (truthy logo), (truthy (bottomText o)); simpl;
    intuition (subst; reflexivity).
Qed.


(** C8. The clip set for the symbol is in force for the symbol draw
    only: the three calls that draw the symbol leave the drawing state and
    the stack as they found them, and every later operation of the run
    (border-class frame, disc, logo, caption) is drawn unclipped. *)
Theorem C8_clip_scoped env s d :
  reaches_canvas env s d ->
  let o := options s in
  let logo := logoDataUrl s in
  (forall c, cur (symbol_phase o d c) = cur c /\
             saved (symbol_phase o d c) = saved c) /\
  clip (st (symbol_op o d)) = [shape_path o (qrX o) (qrX o) (size o)] /\
  exists before after,
    render_log env s = before ++ symbol_op o d :: after /\
    after = (if frame_last_test o then frame_ops o else [])
            ++ logo_ops o logo ++ caption_ops o logo /\
    forall op, In op after -> clip (st op) = [].
Proof.
  intros H o logo. split; [|split].
  - intros c. destruct (adds_symbol_phase o d c) as (Hc & Hs & _). auto.
  - reflexivity.
  - exists (clear_op o :: (if frame_first_test o then frame_ops o else [])).
    eexists. split; [|split; [reflexivity|]].
    + rewrite (render_log_expected env s d H). fold o logo.
      unfold expected_log, base_ops. cbn [app].
      rewrite <- !app_assoc. reflexivity.
    + intros op Hin. apply in_app_or in Hin. destruct Hin as [Hin|Hin].
      * destruct (frame_last_test o); [|destruct Hin].
        apply (frame_ops_unclipped o op Hin).
      * apply (overlay_unclipped o logo op Hin).
Qed.

Lemma C8_witness :
  exists before after,
    render_log sample_env (mounted framed_options EmptyString)
      = before ++ symbol_op framed_options sample_src :: after /\
    forall op, In op after -> clip (st op) = [].
Proof.
  destruct (C8_clip_scoped sample_env (mounted framed_options EmptyString) sample_src
              framed_reaches) as (_ & _ & before & after & Hlog & _ & Hc).
  exists before, after. split; [exact Hlog | exact Hc].
Defined.





(* ================================================================== *)
(** * Further properties of the compositing pipeline *)
(* ================================================================== *)

(** The state a run that reaches the canvas ends in. *)
Lemma render_state env s d :
  reaches_canvas env s d ->
  let cv := {| width := frameSize (options s);
               height := totalHeight (options s);
               has2d := has2d (canvas s);
               context := pipeline (options s) (logoDataUrl s) d initial_ctx |} in
  render env s =
  {| options := options s;
     qrDataUrl := canvas_toDataURL env cv;
     logoFile := logoFile s;
     logoDataUrl := logoDataUrl s;
     canvasRef := canvasRef s;
     canvas := cv;
     toasts := toasts s;
     console := console s |}.
Proof.
  intros (He & Hr & Hc). cbv zeta.
  unfold render, run, generateQR. rewrite He, Hr, Hc.
  cbn [negb]. unfold qrImg_onload, logoImg_onload.
  cbn [sl_options sl_logoDataUrl sl_frameSize sl_src
       with_canvas logoDataUrl].
  unfold pipeline, symbol_phase, logo_phase, qrX, when.
  destruct (truthy (logoDataUrl s));
    unfold setQrDataUrl, with_canvas, on_context, set_width, set_height;
    cbn [ll_options ll_frameSize ll_src
         options logoDataUrl logoFile qrDataUrl canvasRef toasts console
         canvas width height context has2d];
    rewrite ?Hr, ?Hc; reflexivity.
Qed.

(** The encoder accepted the payload but the canvas, or its 2D context,
    is not there: the run ends silently, changing nothing and notifying
    nobody. *)
Theorem render_without_surface env s d :
  QRCode_toDataURL env (text (options s)) (qrOptions (options s)) = Some d ->
  canvasRef s = false \/ has2d (canvas s) = false ->
  generateQR env s = (s, None) /\ render env s = s.
Proof.
  intros He Hno. unfold render, run, generateQR. rewrite He.
  destruct Hno as [H|H].
  - rewrite H. auto.
  - rewrite H. destruct (canvasRef s); auto.
Qed.

Lemma render_without_surface_witness :
  let s := {| options := default_options; qrDataUrl := "data:old";
              logoFile := None; logoDataUrl := EmptyString;
              canvasRef := false;
              canvas := {| width := 300; height := 150; has2d := true;
                           context := initial_ctx |};
              toasts := []; console := [] |} in
  render sample_env s = s.
Proof.
  intros s.
  apply (render_without_surface sample_env s sample_src).
  - vm_compute. reflexivity.
  - left. reflexivity.
Defined.





(** A frame is made of rectangles and paths: it draws no image and no
    text. *)
Lemma frame_ops_kind o fs s0 op :
  In op (ops_of (drawFrame o fs) s0) ->
  (forall src x y w h, kind op <> DrawImage src x y w h) /\
  (forall t x y, kind op <> FillText t x y).
Proof.
  destruct (frameType o) eqn:E;
    try (unfold ops_of, drawFrame; rewrite E; simpl;
         intuition (subst; discriminate)).
  destruct (wavy_ops o fs E) as [pth H]. rewrite H. simpl.
  intuition (subst; discriminate).
Qed.

(** The component sets no [onerror] on the logo image.  With a logo that
    does not decode, a run that reaches the canvas ends after the symbol and
    the frame: the canvas has its new size, the symbol is the only image
    drawn, no text is drawn, nothing is published and nobody is told. *)
Theorem undecoded_logo_ends_run env decodes s d :
  reaches_canvas env s d ->
  decodes d = true ->
  logoDataUrl s <> EmptyString ->
  decodes (logoDataUrl s) = false ->
  let o := options s in
  let s' := run env decodes s in
  run_log env decodes s = base_ops o d /\
  (forall op src x y w h,
     In op (run_log env decodes s) -> kind op = DrawImage src x y w h ->
     op = symbol_op o d) /\
  (forall op t x y,
     In op (run_log env decodes s) -> kind op <> FillText t x y) /\
  width (canvas s') = frameSize o /\
  height (canvas s') = totalHeight o /\
  qrDataUrl s' = qrDataUrl s /\
  toasts s' = toasts s /\
  console s' = console s.
Proof.
  intros H Hd Hl Hn o s'.
  assert (Hlog : run_log env decodes s = base_ops o d).
  { rewrite (run_log_expected env decodes s d H).
    apply run_ops_stalled; assumption. }
  assert (Hin : forall op, In op (base_ops o d) ->
                  op = clear_op o \/ op = symbol_op o d \/ In op (frame_ops o)).
  { intros op. unfold base_ops. cbn [In]. rewrite in_app_iff. cbn [In].
    destruct (frame_first_test o), (frame_last_test o); cbn [In]; intuition. }
  pose proof (run_state env decodes s d H) as E. cbv zeta in E.
  split; [exact Hlog|]. rewrite Hlog.
  split; [|split].
  - intros op src x y w h Ho Hk.
    destruct (Hin op Ho) as [->|[->|Hf]]; [discriminate | reflexivity |].
    destruct (frame_ops_kind _ _ _ _ Hf) as [Hno _].
    destruct (Hno _ _ _ _ _ Hk).
  - intros op t x y Ho.
    destruct (Hin op Ho) as [->|[->|Hf]]; [discriminate | discriminate |].
    destruct (frame_ops_kind _ _ _ _ Hf) as [_ Hno]. apply Hno.
  - unfold s'. rewrite E.
    cbn [canvas width height qrDataUrl toasts console].
    rewrite publishes_stalled by (right; split; assumption).
    repeat split.
Qed.

Lemma undecoded_logo_ends_run_witness :
  run_log sample_env png_only
    (mounted default_options "data:image/*;base64,notes.txt")
  = base_ops default_options sample_src.
Proof.
  destruct (undecoded_logo_ends_run sample_env png_only
              (mounted default_options "data:image/*;base64,notes.txt")
              sample_src
              (sample_reaches default_options _ eq_refl eq_refl) eq_refl)
    as (H & _); [discriminate | reflexivity | exact H].
Defined.

(** Running again without any change gives the same canvas and the same
    image, whether or not the run reaches the canvas: the canvas does not
    accumulate. *)
Theorem render_idempotent env s :
  canvas (render env (render env s)) = canvas (render env s) /\
  qrDataUrl (render env (render env s)) = qrDataUrl (render env s).
Proof.
  destruct (QRCode_toDataURL env (text (options s)) (qrOptions (options s)))
    as [d|] eqn:He.
  - destruct (canvasRef s) eqn:Hr; [destruct (has2d (canvas s)) eqn:Hc|].
    + assert (H : reaches_canvas env s d) by (repeat split; assumption).
      pose proof (render_state env s d H) as E. cbv zeta in E.
      assert (H2 : reaches_canvas env (render env s) d).
      { rewrite E. unfold reaches_canvas.
        cbn [options canvasRef canvas has2d]. auto. }
      pose proof (render_state env (render env s) d H2) as E2.
      cbv zeta in E2. rewrite E2. rewrite E.
      cbn [options logoDataUrl canvas qrDataUrl has2d]. auto.
    + assert (E : render env s = s)
        by (unfold render, run, generateQR; rewrite He, Hr, Hc; reflexivity).
      rewrite !E. auto.
    + assert (E : render env s = s)
        by (unfold render, run, generateQR; rewrite He, Hr; reflexivity).
      rewrite !E. auto.
  - assert (E : forall t, options t = options s ->
                 canvas (render env t) = canvas t /\
                 qrDataUrl (render env t) = qrDataUrl t).
    { intros t Ht. unfold render, run, generateQR. rewrite Ht, He. auto. }
    destruct (E s eq_refl) as [E1 E2].
    assert (Ho : options (render env s) = options s)
      by (unfold render, run, generateQR; rewrite He; reflexivity).
    destruct (E (render env s) Ho) as [E3 E4].
    rewrite E3, E4. auto.
Qed.



(* ================================================================== *)
(** * Layout: what lies where on the canvas *)
(* ================================================================== *)

Lemma qrX_margin o : qrX o = extraSpace o / 2.
Proof. unfold qrX, frameSize. field. Qed.

Lemma extraSpace_nonneg o : 0 <= extraSpace o.
Proof. unfold extraSpace. destruct (negb _); lra. Qed.

Lemma textSpace_nonneg o : 0 <= textSpace o.
Proof. unfold textSpace. destruct (truthy _); lra. Qed.

(** The symbol is drawn inside the canvas, in the middle of the
    [frameSize] square, with the same margin (half of the extra space, so
    30 pixels with a frame and none without) on every side of that
    square. *)
Theorem symbol_within_canvas env s d p :
  reaches_canvas env s d ->
  let o := options s in
  let cv := canvas (render env s) in
  covers (symbol_op o d) p ->
  in_rect 0 0 (width cv) (height cv) p /\
  in_rect (extraSpace o / 2) (extraSpace o / 2) (size o) (size o) p /\
  extraSpace o / 2 + size o + extraSpace o / 2 = width cv /\
  qrX o + size o / 2 = width cv / 2.
Proof.
  intros H o cv [Hf _].
  destruct (render_canvas env s d H) as (_ & Hw & Hh).
  fold o cv in Hw, Hh. rewrite Hw, Hh.
  unfold figure_of, symbol_op in Hf. cbn [kind] in Hf.
  rewrite qrX_margin in Hf.
  pose proof (extraSpace_nonneg o). pose proof (textSpace_nonneg o).
  unfold in_rect in *. unfold qrX, totalHeight, frameSize.
  repeat split; lra.
Qed.

Lemma symbol_within_canvas_witness :
  in_rect 0 0
    (width (canvas (render sample_env (mounted framed_options EmptyString))))
    (height (canvas (render sample_env (mounted framed_options EmptyString))))
    (36, 100).
Proof.
  apply (symbol_within_canvas sample_env (mounted framed_options EmptyString)
           sample_src (36, 100) framed_reaches).
  split.
  - unfold figure_of, symbol_op, in_rect, qrX, frameSize, extraSpace.
    cbn. lra.
  - unfold symbol_op. cbn [st clip add_clip].
    rewrite shape_path_square by reflexivity.
    constructor; [|constructor].
    exists (FRect (qrX framed_options) (qrX framed_options) 300 300).
    split; [left; reflexivity|].
    unfold inside_figure, in_rect, qrX, frameSize, extraSpace. cbn. lra.
Defined.

Lemma disc_covers_in_disc o p :
  covers (disc_op o) p ->
  in_disc (frameSize o / 2) (frameSize o / 2) (size o * 0.2 / 2 + 5) p.
Proof.
  intros [Hf _]. unfold figure_of, disc_op in Hf. cbn [kind] in Hf.
  apply (inside_arc_path _ _ _ 0 (2 * PI)). exact Hf.
Qed.

(** The logo image lies within the symbol region, in its middle; so
    does the backing disc once the symbol is at least 12.5 pixels wide. *)
Theorem logo_within_symbol o logo p :
  0 <= size o ->
  (covers (logo_op o logo) p ->
   in_rect (qrX o + size o * 0.4) (qrX o + size o * 0.4)
           (size o * 0.2) (size o * 0.2) p /\
   in_rect (qrX o) (qrX o) (size o) (size o) p) /\
  (12.5 <= size o -> covers (disc_op o) p ->
   in_rect (qrX o) (qrX o) (size o) (size o) p).
Proof.
  intros Hs. split.
  - intros [Hf _]. unfold figure_of, logo_op in Hf. cbn [kind] in Hf.
    unfold in_rect, qrX in *. lra.
  - intros Hb Hd. apply disc_covers_in_disc in Hd.
    unfold in_disc in Hd. unfold in_rect, qrX.
    assert (Hy : (snd p - frameSize o / 2) * (snd p - frameSize o / 2)
                 <= (size o * 0.2 / 2 + 5) * (size o * 0.2 / 2 + 5)).
    { pose proof (Rle_0_sqr (fst p - frameSize o / 2)) as K.
      unfold Rsqr in K. lra. }
    assert (Hx : (fst p - frameSize o / 2) * (fst p - frameSize o / 2)
                 <= (size o * 0.2 / 2 + 5) * (size o * 0.2 / 2 + 5)).
    { pose proof (Rle_0_sqr (snd p - frameSize o / 2)) as K.
      unfold Rsqr in K. lra. }
    destruct (sq_bound (fst p - frameSize o / 2) (size o * 0.2 / 2 + 5));
      [lra | exact Hx |].
    destruct (sq_bound (snd p - frameSize o / 2) (size o * 0.2 / 2 + 5));
      [lra | exact Hy |].
    lra.
Qed.

Lemma logo_within_symbol_witness :
  in_rect (qrX default_options) (qrX default_options) 300 300 (150, 150).
Proof.
  assert (H : 0 <= size default_options) by (cbn; lra).
  destruct (logo_within_symbol default_options sample_logo (150, 150) H)
    as [Hl _].
  apply Hl. split; [|constructor].
  unfold figure_of, logo_op, in_rect, frameSize, extraSpace. cbn. lra.
Defined.

(** From a symbol 121 pixels wide on, so for every size the slider
    offers, the backing disc is smaller than the logo's diagonal: each
    corner of the logo image is drawn by the logo and not backed by the
    disc. *)
Theorem logo_corners_unbacked o logo c :
  121 <= size o ->
  In c (logo_corners o) ->
  covers (logo_op o logo) c /\ ~ covers (disc_op o) c.
Proof.
  intros Hs Hin. split.
  - split; [|constructor].
    unfold figure_of, logo_op. cbn [kind].
    unfold logo_corners in Hin. cbv zeta in Hin. unfold in_rect.
    destruct Hin as [<-|[<-|[<-|[<-|[]]]]]; cbn [fst snd]; lra.
  - intros Hd. apply disc_covers_in_disc in Hd. unfold in_disc in Hd.
    unfold logo_corners in Hin. cbv zeta in Hin.
    destruct Hin as [<-|[<-|[<-|[<-|[]]]]]; cbn [fst snd] in Hd; nra.
Qed.

Lemma logo_corners_unbacked_witness :
  ~ covers (disc_op default_options)
      ((frameSize default_options - size default_options * 0.2) / 2,
       (frameSize default_options - size default_options * 0.2) / 2).
Proof.
  assert (H : 121 <= size default_options) by (cbn; lra).
  destruct (logo_corners_unbacked default_options sample_logo _ H
              (or_introl eq_refl)) as [_ Hn].
  exact Hn.
Defined.

(* ================================================================== *)
(** * Download, logo removal, and uploads followed by a run *)
(* ================================================================== *)

(** With no image yet, [downloadQR] does nothing at all: no download is
    started and no notification shown.  That is the case after a first
    run the encoder rejected. *)
Theorem download_without_image env now pg :
  qrDataUrl (component pg) = EmptyString ->
  downloadQR now pg = pg /\
  (QRCode_toDataURL env (text (options (component pg)))
     (qrOptions (options (component pg))) = None ->
   downloads (downloadQR now (on_app (render env) pg)) = downloads pg).
Proof.
  intros Hq. split.
  - unfold downloadQR. rewrite Hq. reflexivity.
  - intros He. unfold downloadQR, on_app. cbn [component].
    unfold render, run, generateQR. rewrite He.
    cbn [qrDataUrl show_toast console_error]. rewrite Hq. reflexivity.
Qed.

Lemma download_without_image_witness :
  let pg := {| component := mounted default_options EmptyString;
               fileInput := Some EmptyString; downloads := [] |} in
  downloadQR 1730000000000 pg = pg.
Proof.
  intros pg.
  destruct (download_without_image sample_env 1730000000000 pg eq_refl)
    as [H _].
  exact H.
Defined.



(** After [removeLogo], whatever logo was there, the logo data and file
    are cleared, the file input is emptied, and a run draws the symbol, the
    frame and the caption only: no disc and no logo image. *)
Theorem render_after_removeLogo env pg d :
  reaches_canvas env (component pg) d ->
  let o := options (component pg) in
  let s' := component (removeLogo pg) in
  logoDataUrl s' = EmptyString /\
  logoFile s' = None /\
  (fileInput pg <> None -> fileInput (removeLogo pg) = Some EmptyString) /\
  toasts s' = toasts (component pg) ++ [toast_success "Logo removed"] /\
  render_log env s' = base_ops o d ++ caption_ops o EmptyString.
Proof.
  intros H o s'.
  assert (H' : reaches_canvas env s' d) by exact H.
  repeat split.
  - unfold removeLogo. cbn [fileInput]. destruct (fileInput pg); congruence.
  - rewrite (render_log_expected env s' d H'). reflexivity.
Qed.

Lemma render_after_removeLogo_witness :
  render_log sample_env
    (component (removeLogo
       {| component := mounted default_options sample_logo;
          fileInput := Some "C:\\fakepath\\logo.png"; downloads := [] |}))
  = base_ops default_options sample_src
    ++ caption_ops default_options EmptyString.
Proof.
  destruct (render_after_removeLogo sample_env
              {| component := mounted default_options sample_logo;
                 fileInput := Some "C:\\fakepath\\logo.png"; downloads := [] |}
              sample_src logo_reaches) as (_ & _ & _ & _ & H).
  exact H.
Defined.



(* ================================================================== *)
(** * Where the frames are painted *)
(* ================================================================== *)

Section FrameGeometry.

(** A rectangle is convex. *)
Lemma hull_in_rect x y w h vs p :
  (forall v, In v vs -> in_rect x y w h v) -> hull vs p -> in_rect x y w h p.
Proof.
  intros Hv Hp. induction Hp as [v Hin | a b t _ IHa _ IHb Ht].
  - auto.
  - unfold in_rect, mix in *. cbn [fst snd].
    destruct IHa as [[? ?] [? ?]], IHb as [[? ?] [? ?]].
    repeat split; nra.
Qed.

Lemma lines_only_app l1 l2 :
  lines_only l1 -> lines_only l2 -> lines_only (l1 ++ l2).
Proof. unfold lines_only. intros. apply Forall_app. auto. Qed.

Lemma line_points_app l1 l2 :
  line_points (l1 ++ l2) = line_points l1 ++ line_points l2.
Proof.
  induction l1 as [|c l1 IH]; [reflexivity|].
  destruct c; simpl; rewrite IH; reflexivity.
Qed.

(** The figures of a path of straight lines are polygons on points of
    the path. *)
Lemma figures_of_lines cmds : lines_only cmds ->
  forall open f, In f (figures_from open cmds) ->
  exists vs, f = FPolygon vs /\ incl vs (open ++ line_points cmds).
Proof.
  induction 1 as [|c cmds Hc _ IH]; intros open f Hin.
  - simpl in Hin. destruct open as [|v open]; [destruct Hin|].
    destruct Hin as [<-|[]]. exists (v :: open). split; [reflexivity|].
    rewrite app_nil_r. apply incl_refl.
  - destruct c; try contradiction; simpl in Hin.
    + apply in_app_or in Hin. destruct Hin as [Hin|Hin].
      * destruct open as [|v open]; [destruct Hin|].
        destruct Hin as [<-|[]]. exists (v :: open). split; [reflexivity|].
        apply incl_appl, incl_refl.
      * destruct (IH _ _ Hin) as (vs & -> & Hvs).
        exists vs. split; [reflexivity|].
        simpl line_points. apply incl_appr. exact Hvs.
    + destruct (IH _ _ Hin) as (vs & -> & Hvs).
      exists vs. split; [reflexivity|].
      simpl line_points. rewrite <- app_assoc in Hvs. exact Hvs.
    + apply in_app_or in Hin. destruct Hin as [Hin|Hin].
      * destruct open as [|v open]; [destruct Hin|].
        destruct Hin as [<-|[]]. exists (v :: open). split; [reflexivity|].
        apply incl_appl, incl_refl.
      * destruct (IH _ _ Hin) as (vs & -> & Hvs).
        exists vs. split; [reflexivity|].
        simpl line_points. intros v Hv. apply Hvs in Hv.
        apply in_or_app. apply in_app_or in Hv. destruct Hv as [Hv|Hv]; auto.
        left. destruct open as [|w open]; [destruct Hv|].
        simpl in Hv. destruct Hv as [<-|[]]. left. reflexivity.
Qed.

(** A path of straight lines through points of a rectangle encloses
    points of that rectangle only. *)
Lemma inside_lines_rect x y w h cmds p :
  lines_only cmds ->
  Forall (in_rect x y w h) (line_points cmds) ->
  inside_path cmds p -> in_rect x y w h p.
Proof.
  intros Hl Hp (f & Hin & Hf).
  destruct (figures_of_lines cmds Hl [] f Hin) as (vs & -> & Hvs).
  simpl in Hf, Hvs. apply winding_hull in Hf.
  apply (hull_in_rect x y w h vs); [|exact Hf].
  intros v Hv. rewrite Forall_forall in Hp. auto.
Qed.

(** The upward loop with a [lineTo] body appends line segments, through
    points its body computes for values between the start and the bound. *)
Lemma for_up_lines n x0 bound step (g h : R -> R) (P : point -> Prop) :
  0 < step ->
  (forall v, x0 <= v <= bound -> P (g v, h v)) ->
  forall x, x0 <= x ->
  exists l,
    (forall c, for_up n x bound step (fun v => lineTo (g v) (h v)) c
               = with_path (fun p => p ++ l) c) /\
    lines_only l /\ Forall P (line_points l).
Proof.
  intros Hs HP. induction n as [|n IH]; intros x Hx.
  - exists []. split; [|split; constructor].
    intros [cu sa pa lg]. unfold skip, with_path. simpl.
    rewrite app_nil_r. reflexivity.
  - simpl. destruct (Rle_dec x bound) as [Hle|Hgt].
    + destruct (IH (x + step)) as (l & Hl & Hlo & Hpt); [lra|].
      exists (LineTo (g x) (h x) :: l). split; [|split].
      * intros c. unfold andThen. rewrite Hl.
        destruct c as [cu sa pa lg]. unfold lineTo, with_path. simpl.
        rewrite <- app_assoc. reflexivity.
      * constructor; [exact I | exact Hlo].
      * simpl. constructor; [apply HP; lra | exact Hpt].
    + exists []. split; [|split; constructor].
      intros [cu sa pa lg]. unfold skip, with_path. simpl.
      rewrite app_nil_r. reflexivity.
Qed.

Lemma for_down_lines n x0 bound step (g h : R -> R) (P : point -> Prop) :
  0 < step ->
  (forall v, bound <= v <= x0 -> P (g v, h v)) ->
  forall x, x <= x0 ->
  exists l,
    (forall c, for_down n x bound step (fun v => lineTo (g v) (h v)) c
               = with_path (fun p => p ++ l) c) /\
    lines_only l /\ Forall P (line_points l).
Proof.
  intros Hs HP. induction n as [|n IH]; intros x Hx.
  - exists []. split; [|split; constructor].
    intros [cu sa pa lg]. unfold skip, with_path. simpl.
    rewrite app_nil_r. reflexivity.
  - simpl. destruct (Rge_dec x bound) as [Hge|Hlt].
    + destruct (IH (x - step)) as (l & Hl & Hlo & Hpt); [lra|].
      exists (LineTo (g x) (h x) :: l). split; [|split].
      * intros c. unfold andThen. rewrite Hl.
        destruct c as [cu sa pa lg]. unfold lineTo, with_path. simpl.
        rewrite <- app_assoc. reflexivity.
      * constructor; [exact I | exact Hlo].
      * simpl. constructor; [apply HP; lra | exact Hpt].
    + exists []. split; [|split; constructor].
      intros [cu sa pa lg]. unfold skip, with_path. simpl.
      rewrite app_nil_r. reflexivity.
Qed.

(** The wavy frame is one filled path of straight lines through points
    of the inset square, as soon as that square is 10 pixels wide. *)
Lemma wavy_ops_inside o fs :
  frameType o = FrameWavy ->
  10 <= fs - fs * 0.1 * 2 ->
  exists pth,
    (forall s0, ops_of (drawFrame o fs) s0 =
       [ {| kind := Fill pth;
            st := st_fillStyle (Color (frameColor o)) s0 |} ]) /\
    lines_only pth /\
    Forall (in_rect (fs * 0.1) (fs * 0.1) (fs - fs * 0.1 * 2)
              (fs - fs * 0.1 * 2))
           (line_points pth).
Proof.
  intros E Hw. unfold ops_of, drawFrame. rewrite E.
  set (pad := fs * 0.1) in *. set (fw := fs - pad * 2) in *.
  set (P := in_rect pad pad fw fw).
  assert (S10 : 0 < 10) by lra.
  destruct (for_up_lines (trips pad (pad + fw) 10) pad (pad + fw) 10
    (fun x => x) (fun x => pad + 5 * sin ((x - pad) * 0.1) + 5) P S10)
    with (x := pad) as (l1 & H1 & Hl1 & Hp1); [|lra|].
  { intros v Hv. pose proof (SIN_bound ((v - pad) * 0.1)).
    unfold P, in_rect. cbn [fst snd]. lra. }
  destruct (for_up_lines (trips pad (pad + fw) 10) pad (pad + fw) 10
    (fun y => pad + fw - 5 * sin ((y - pad) * 0.1) - 5) (fun y => y) P S10)
    with (x := pad) as (l2 & H2 & Hl2 & Hp2); [|lra|].
  { intros v Hv. pose proof (SIN_bound ((v - pad) * 0.1)).
    unfold P, in_rect. cbn [fst snd]. lra. }
  destruct (for_down_lines (trips pad (pad + fw) 10) (pad + fw) pad 10
    (fun x => x) (fun x => pad + fw - 5 * sin ((x - pad) * 0.1) - 5) P S10)
    with (x := pad + fw) as (l3 & H3 & Hl3 & Hp3); [|lra|].
  { intros v Hv. pose proof (SIN_bound ((v - pad) * 0.1)).
    unfold P, in_rect. cbn [fst snd]. lra. }
  destruct (for_down_lines (trips pad (pad + fw) 10) (pad + fw) pad 10
    (fun y => pad + 5 * sin ((y - pad) * 0.1) + 5) (fun y => y) P S10)
    with (x := pad + fw) as (l4 & H4 & Hl4 & Hp4); [|lra|].
  { intros v Hv. pose proof (SIN_bound ((v - pad) * 0.1)).
    unfold P, in_rect. cbn [fst snd]. lra. }
  exists (((((([] ++ [MoveTo pad (pad + 10)]) ++ l1) ++ l2) ++ l3) ++ l4)
          ++ [ClosePath]).
  split; [|split].
  - intros s0. unfold andThen.
    rewrite H1, H2, H3, H4. reflexivity.
  - apply lines_only_app; [|repeat constructor].
    apply lines_only_app; [|exact Hl4].
    apply lines_only_app; [|exact Hl3].
    apply lines_only_app; [|exact Hl2].
    apply lines_only_app; [|exact Hl1].
    repeat constructor.
  - rewrite !line_points_app.
    apply Forall_app. split; [|constructor].
    apply Forall_app. split; [|exact Hp4].
    apply Forall_app. split; [|exact Hp3].
    apply Forall_app. split; [|exact Hp2].
    apply Forall_app. split; [|exact Hp1].
    simpl. constructor; [|constructor].
    unfold P, in_rect. cbn [fst snd]. lra.
Qed.

End FrameGeometry.

Lemma framed_size o :
  frameType o <> FrameNone -> frameSize o = size o + 60.
Proof.
  intros Hn. unfold frameSize, extraSpace.
  destruct (frameType o); simpl; congruence.
Qed.

Lemma background_framed o :
  background_class (frameType o) -> frameType o <> FrameNone.
Proof. intros [H|[H|H]]; rewrite H; discriminate. Qed.

(** The figures of the speech bubble, of the wavy frame and of the card
    lie in the inset square. *)
Lemma bubble_ops_inset o f p :
  frameType o = FrameSpeechBubble ->
  60 <= frameSize o ->
  In f (frame_ops o) -> figure_of f p -> in_inset o p.
Proof.
  intros E Hfs Hin Hf. unfold in_inset, frame_ops in *.
  set (fs := frameSize o) in *.
  unfold ops_of, drawFrame in Hin. rewrite E in Hin. cbn in Hin.
  destruct Hin as [<-|[<-|[]]]; unfold figure_of in Hf; cbn [kind] in Hf.
  - apply inside_round_rect_path in Hf. destruct Hf as [Hr _].
    unfold in_rect in *. lra.
  - revert Hf. apply inside_lines_rect.
    + repeat constructor.
    + simpl. repeat constructor; cbn [fst snd]; lra.
Qed.

Lemma wavy_frame_inset o f p :
  frameType o = FrameWavy ->
  60 <= frameSize o ->
  In f (frame_ops o) -> figure_of f p -> in_inset o p.
Proof.
  intros E Hfs Hin Hf. unfold in_inset, frame_ops in *.
  set (fs := frameSize o) in *.
  destruct (wavy_ops_inside o fs E) as (pth & Hops & Hl & Hp); [lra|].
  rewrite Hops in Hin. destruct Hin as [<-|[]].
  unfold figure_of in Hf. cbn [kind] in Hf.
  exact (inside_lines_rect _ _ _ _ pth p Hl Hp Hf).
Qed.

Lemma card_ops_inset o f p :
  frameType o = FrameCardStyle ->
  60 <= frameSize o ->
  In f (frame_ops o) -> figure_of f p -> in_inset o p.
Proof.
  intros E Hfs Hin Hf. unfold in_inset, frame_ops in *.
  set (fs := frameSize o) in *.
  unfold ops_of, drawFrame in Hin. rewrite E in Hin. cbn in Hin.
  destruct Hin as [<-|[<-|[]]]; unfold figure_of in Hf; cbn [kind] in Hf;
    unfold in_rect in *; lra.
Qed.

(** The background-class frames (speech-bubble, wavy, card-style) are
    painted inside the square inset by a tenth of [frameSize]: the outer
    tenth of the canvas is left to the canvas background (the blur of the
    card's shadow aside). *)
Theorem background_frame_in_inset o f p :
  0 <= size o ->
  background_class (frameType o) ->
  In f (frame_ops o) ->
  covers f p ->
  in_inset o p.
Proof.
  intros Hs Hb Hin [Hf _].
  pose proof (framed_size o (background_framed o Hb)) as Hfs.
  assert (Hfs60 : 60 <= frameSize o) by lra.
  destruct Hb as [E|[E|E]].
  - exact (bubble_ops_inset o f p E Hfs60 Hin Hf).
  - exact (wavy_frame_inset o f p E Hfs60 Hin Hf).
  - exact (card_ops_inset o f p E Hfs60 Hin Hf).
Qed.

Lemma background_frame_in_inset_witness :
  in_inset (with_frame FrameCardStyle default_options) (100, 100).
Proof.
  assert (Hs : 0 <= size (with_frame FrameCardStyle default_options))
    by (cbn; lra).
  refine (background_frame_in_inset (with_frame FrameCardStyle default_options)
            _ (100, 100) Hs (or_intror (or_intror eq_refl)) _ _).
  - unfold frame_ops, ops_of, drawFrame. cbn. left. reflexivity.
  - split; [|constructor].
    unfold figure_of, in_rect, frameSize, extraSpace. cbn. lra.
Defined.

(** The frames drawn with [strokeRect] (simple, gradient, neon, vintage)
    are painted inside the canvas, in a ring at most 12 pixels wide about
    the edge of the inset square: the middle of the canvas, from 6 pixels
    inside that edge on, is never painted by them (the glow of the neon
    style aside). *)
Theorem stroke_frame_in_ring o f p :
  0 <= size o ->
  frameType o = FrameSimple \/ frameType o = FrameGradient \/
  frameType o = FrameNeon \/ frameType o = FrameVintage ->
  In f (frame_ops o) ->
  covers f p ->
  let pad := frameSize o * 0.1 in
  in_rect 0 0 (frameSize o) (frameSize o) p /\
  ~ (pad + 6 < fst p < frameSize o - pad - 6 /\
     pad + 6 < snd p < frameSize o - pad - 6).
Proof.
  intros Hs Ht Hin [Hf _] pad.
  assert (Hn : frameType o <> FrameNone)
    by (destruct Ht as [E|[E|[E|E]]]; rewrite E; discriminate).
  pose proof (framed_size o Hn) as Hfs.
  unfold frame_ops in Hin. unfold pad. clear pad.
  set (fs := frameSize o) in *.
  assert (Hfs60 : 60 <= fs) by lra. clear Hfs Hs Hn.
  destruct Ht as [E|[E|[E|E]]];
    unfold ops_of, drawFrame in Hin; rewrite E in Hin; cbn in Hin;
    repeat (destruct Hin as [<-|Hin]; [|]);
    try destruct Hin;
    unfold figure_of in Hf; cbn in Hf;
    unfold in_band, in_rect in *; cbn [fst snd] in *;
    (split; [lra | intros K; apply (proj2 Hf); lra]).
Qed.

Lemma stroke_frame_in_ring_witness :
  in_rect 0 0 (frameSize framed_options) (frameSize framed_options) (36, 100).
Proof.
  assert (Hs : 0 <= size framed_options) by (cbn; lra).
  refine (proj1 (stroke_frame_in_ring framed_options _ (36, 100) Hs
                   (or_introl eq_refl) _ _)).
  - unfold frame_ops, ops_of, drawFrame. cbn. left. reflexivity.
  - split; [|constructor].
    unfold figure_of, in_band, in_rect, frameSize, extraSpace. cbn. lra.
Defined.

(** With the square shape and a symbol of 240 pixels or more (the
    default is 300), the symbol region contains the whole inset square.
    The speech-bubble and wavy frames are made of fills drawn without
    shadow, so all they paint is painted over by the symbol drawn after
    them.  The card-style frame is not covered by this: its first rectangle
    is drawn with a shadow offset by 3 pixels and blurred over 10, which
    falls outside the rectangle and outside the symbol region. *)
Theorem background_frame_hidden o d :
  240 <= size o ->
  shape o = ShapeSquare ->
  (frameType o = FrameSpeechBubble \/ frameType o = FrameWavy ->
   forall f, In f (frame_ops o) ->
     (exists cmds, kind f = Fill cmds) /\
     unshadowed f /\
     forall p, covers f p -> covers (symbol_op o d) p) /\
  (frameType o = FrameCardStyle ->
   exists f, In f (frame_ops o) /\
     shadowColor (st f) = "rgba(0, 0, 0, 0.3)" /\
     shadowBlur (st f) = 10 /\
     shadowOffsetX (st f) = 3 /\ shadowOffsetY (st f) = 3).
Proof.
  intros Hs Hsq. split.
  - intros Ht f Hin.
    assert (Hb : background_class (frameType o))
      by (destruct Ht as [E|E]; rewrite E; unfold background_class; auto).
    split; [|split].
    + destruct Ht as [E|E].
      * unfold frame_ops, ops_of, drawFrame in Hin. rewrite E in Hin.
        cbn in Hin. destruct Hin as [<-|[<-|[]]]; eexists; reflexivity.
      * destruct (wavy_ops o (frameSize o) E) as [pth Hops].
        unfold frame_ops in Hin. rewrite Hops in Hin.
        destruct Hin as [<-|[]]. eexists; reflexivity.
    + destruct Ht as [E|E].
      * unfold frame_ops, ops_of, drawFrame in Hin. rewrite E in Hin.
        cbn in Hin.
        destruct Hin as [<-|[<-|[]]]; repeat split.
      * destruct (wavy_ops o (frameSize o) E) as [pth Hops].
        unfold frame_ops in Hin. rewrite Hops in Hin.
        destruct Hin as [<-|[]]. repeat split.
    + intros p Hc.
      pose proof (framed_size o (background_framed o Hb)) as Hfs.
      assert (Hfs60 : 60 <= frameSize o) by lra.
      assert (Hi : in_inset o p).
      { destruct Hc as [Hf _]. destruct Ht as [E|E].
        - exact (bubble_ops_inset o f p E Hfs60 Hin Hf).
        - exact (wavy_frame_inset o f p E Hfs60 Hin Hf). }
      assert (Hr : in_rect (qrX o) (qrX o) (size o) (size o) p).
      { unfold in_inset, in_rect, qrX in *. rewrite Hfs in *. lra. }
      split.
      * exact Hr.
      * unfold symbol_op. cbn [st clip add_clip].
        rewrite (shape_path_square o _ _ _ Hsq).
        constructor; [|constructor].
        exists (FRect (qrX o) (qrX o) (size o) (size o)).
        split; [left; reflexivity | exact Hr].
  - intros E. unfold frame_ops, ops_of, drawFrame. rewrite E. cbn.
    eexists. split; [left; reflexivity|]. repeat split.
Qed.

Lemma background_frame_hidden_witness :
  let o := with_frame FrameSpeechBubble default_options in
  Forall unshadowed (frame_ops o) /\
  covers (symbol_op o sample_src) (100, 100).
Proof.
  intros o.
  assert (Hs : 240 <= size o) by (cbn; lra).
  destruct (background_frame_hidden o sample_src Hs eq_refl) as [H _].
  specialize (H (or_introl eq_refl)).
  split.
  - apply Forall_forall. intros f Hin. apply (H f Hin).
  - set (f := hd (clear_op o) (frame_ops o)).
    assert (Hin : In f (frame_ops o))
      by (unfold f, frame_ops, ops_of, drawFrame; cbn; left; reflexivity).
    destruct (H f Hin) as (_ & _ & Hc). apply Hc.
    unfold f, frame_ops, ops_of, drawFrame. cbn.
    split; [|constructor].
    unfold figure_of. cbn [kind].
    eexists. split; [left; reflexivity|].
    unfold inside_figure, in_round_rect, in_rect, in_disc, frameSize,
      extraSpace.
    cbn. repeat split; try lra; intros; lra.
Defined.

(* ================================================================== *)
(** * The profile builder and the profile page *)
(* ================================================================== *)

Import Profile.

Section TextFacts.

Lemma prefix_app n b : prefix n (n ++ b)%string = true.
Proof.
  induction n as [|c n IH]; simpl.
  - destruct b; reflexivity.
  - destruct (ascii_dec c c); [exact IH | congruence].
Qed.



Lemma decimal_truthy n : truthy (decimal n) = true.
Proof.
  unfold decimal, DecimalString.NilZero.string_of_uint.
  destruct (N.to_uint n); reflexivity.
Qed.

End TextFacts.

Section DetectorFacts.

Variable js : JS.

Lemma detector_truthy url t :
  socialMediaDetector js url = Some t -> truthy t = true.
Proof.
  unfold socialMediaDetector. cbv zeta.
  repeat match goal with
         | |- context [if ?b then _ else _] => destruct b
         end; intros H; inversion H; reflexivity.
Qed.

Lemma or_undefined_detector url :
  or_undefined (socialMediaDetector js url) = socialMediaDetector js url.
Proof.
  destruct (socialMediaDetector js url) as [t|] eqn:E; [|reflexivity].
  simpl. rewrite (detector_truthy url t E). reflexivity.
Qed.

(** The detector answers one of seven names or nothing. *)
Theorem detector_range url :
  match socialMediaDetector js url with
  | None => True
  | Some t =>
      In t ["facebook"; "instagram"; "twitter"; "linkedin"; "youtube";
            "whatsapp"; "telegram"]
  end.
Proof.
  unfold socialMediaDetector. cbv zeta.
  repeat match goal with
         | |- context [if ?b then _ else _] => destruct b
         end; simpl; tauto.
Qed.


End DetectorFacts.


Section LinkFacts.

Variable js : JS.

Lemma set_links_same p : set_links (links p) p = p.
Proof. destruct p; reflexivity. Qed.

Lemma map_unchanged {A} (f : A -> A) l :
  (forall x, In x l -> f x = x) -> map f l = l.
Proof.
  induction l as [|x l IH]; intros H; simpl; [reflexivity|].
  rewrite H by (left; reflexivity).
  rewrite IH by (intros y Hy; apply H; right; exact Hy). reflexivity.
Qed.

(** [updateLink] keeps the number and the order of the links and leaves
    every link with another id as it is, at its place; it changes nothing
    at all when no link has the id; and, unless the field is the id itself,
    it keeps the ids. *)
Theorem updateLink_frame id field value p :
  List.length (links (updateLink js id field value p)) = List.length (links p) /\
  (forall n l, nth_error (links p) n = Some l -> link_id l <> id ->
     nth_error (links (updateLink js id field value p)) n = Some l) /\
  ((forall l, In l (links p) -> link_id l <> id) ->
     updateLink js id field value p = p) /\
  (field <> FieldId ->
     map link_id (links (updateLink js id field value p))
     = map link_id (links p)).
Proof.
  unfold updateLink. cbn [links set_links]. repeat split.
  - apply length_map.
  - intros n l Hn Hid. rewrite nth_error_map, Hn. cbn [option_map].
    apply String.eqb_neq in Hid. rewrite Hid. reflexivity.
  - intros Hno. rewrite map_unchanged; [apply set_links_same|].
    intros l Hl. apply Hno in Hl. apply String.eqb_neq in Hl.
    rewrite Hl. reflexivity.
  - intros Hf. rewrite map_map. apply map_ext. intros l.
    destruct (String.eqb (link_id l) id); [|reflexivity].
    destruct field; try congruence; reflexivity.
Qed.

(** Typing an address into a link sets its address and replaces its
    social icon by what the detector finds in that address (none, if it
    finds nothing), whatever icon the link had; title, description and
    custom logo stay. *)
Theorem updateLink_url id value p n l :
  nth_error (links p) n = Some l ->
  link_id l = id ->
  exists l',
    nth_error (links (updateLink js id FieldUrl value p)) n = Some l' /\
    link_url l' = value /\
    link_socialIcon l' = socialMediaDetector js value /\
    link_id l' = link_id l /\
    link_title l' = link_title l /\
    link_description l' = link_description l /\
    link_customLogo l' = link_customLogo l.
Proof.
  intros Hn Hid. unfold updateLink. cbn [links set_links].
  rewrite nth_error_map, Hn. cbn [option_map].
  apply String.eqb_eq in Hid. rewrite Hid. cbn [LinkField_eqb].
  eexists. split; [reflexivity|].
  cbn. rewrite or_undefined_detector. repeat split.
Qed.

(** [removeLink] removes every link with the id and no other, and
    keeps the others in the order they had: it acts link by link (one link
    is dropped or kept by its id, and the result for a list is the
    concatenation of the results for its parts), so two links that stay
    follow each other as before; no other field of the profile changes;
    removing twice, or in the other order, changes nothing. *)
Theorem removeLink_spec id p :
  (forall l, In l (links (removeLink id p)) <->
             In l (links p) /\ link_id l <> id) /\
  (forall l, links p = [l] ->
     links (removeLink id p)
     = if String.eqb (link_id l) id then [] else [l]) /\
  (forall l1 l2, links p = l1 ++ l2 ->
     links (removeLink id p)
     = links (removeLink id (set_links l1 p))
       ++ links (removeLink id (set_links l2 p))) /\
  (forall l1 a l2 b l3,
     links p = l1 ++ a :: l2 ++ b :: l3 ->
     link_id a <> id -> link_id b <> id ->
     links (removeLink id p)
     = links (removeLink id (set_links l1 p)) ++ a ::
       links (removeLink id (set_links l2 p)) ++ b ::
       links (removeLink id (set_links l3 p))) /\
  set_links (links p) (removeLink id p) = p /\
  (List.length (links (removeLink id p)) <= List.length (links p))%nat /\
  removeLink id (removeLink id p) = removeLink id p /\
  (forall id', removeLink id (removeLink id' p)
               = removeLink id' (removeLink id p)).
Proof.
  unfold removeLink, set_links.
  cbn [links profile_id profile_title profile_description coverPhoto
       brandLogo].
  split; [|split; [|split; [|split; [|split; [|split; [|split]]]]]].
  - intros l. rewrite filter_In, negb_true_iff, String.eqb_neq. tauto.
  - intros l E. rewrite E. cbn [filter].
    destruct (String.eqb (link_id l) id); reflexivity.
  - intros l1 l2 E. rewrite E. apply filter_app.
  - intros l1 a l2 b l3 E Ha Hb. rewrite E.
    rewrite filter_app. cbn [filter].
    rewrite (proj2 (String.eqb_neq _ _) Ha). cbn [negb].
    rewrite filter_app. cbn [filter].
    rewrite (proj2 (String.eqb_neq _ _) Hb). reflexivity.
  - destruct p; reflexivity.
  - apply filter_length_le.
  - f_equal. induction (links p) as [|l ls IH]; simpl; [reflexivity|].
    destruct (negb (String.eqb (link_id l) id)) eqn:E; simpl;
      [rewrite E, IH; reflexivity | exact IH].
  - intros id'. f_equal.
    induction (links p) as [|l ls IH]; simpl; [reflexivity|].
    destruct (negb (String.eqb (link_id l) id)) eqn:E,
             (negb (String.eqb (link_id l) id')) eqn:E'; simpl;
      rewrite ?E, ?E', IH; reflexivity.
Qed.

(** A link just added is removed again by its id, together with any
    other link that has the same id (two links added in the same
    millisecond share theirs); with a fresh id the profile is as before. *)
Theorem add_then_remove now p :
  removeLink (decimal now) (addLink now p) = removeLink (decimal now) p /\
  removeLink (decimal now) (addLink now (addLink now p))
    = removeLink (decimal now) p /\
  ((forall l, In l (links p) -> link_id l <> decimal now) ->
   removeLink (decimal now) (addLink now p) = p).
Proof.
  assert (E : forall q, removeLink (decimal now) (addLink now q)
                        = removeLink (decimal now) q).
  { intros q. unfold removeLink, addLink. cbn [links set_links].
    destruct q as [i t d c b ls]. unfold set_links. cbn. f_equal.
    rewrite filter_app. cbn. rewrite String.eqb_refl. cbn.
    apply app_nil_r. }
  split; [apply E|]. split.
  - rewrite E. apply E.
  - intros Hfresh. rewrite E. unfold removeLink.
    replace (filter _ (links p)) with (links p); [apply set_links_same|].
    symmetry. apply forallb_filter_id. apply forallb_forall.
    intros l Hl. apply negb_true_iff, String.eqb_neq. auto.
Qed.

End LinkFacts.

Lemma removeLink_spec_witness :
  let p := addLink 3 (addLink 2 (addLink 1 empty_profile)) in
  map link_id (links (removeLink "2" p)) = ["1"; "3"].
Proof.
  intros p.
  destruct (removeLink_spec "2" p) as (_ & _ & _ & H & _).
  rewrite (H [] _ [_] _ [] eq_refl);
    [reflexivity | vm_compute; discriminate | vm_compute; discriminate].
Defined.

Lemma updateLink_frame_witness :
  updateLink sample_js "17" FieldTitle "Home" (addLink 42 empty_profile)
  = addLink 42 empty_profile.
Proof.
  destruct (updateLink_frame sample_js "17" FieldTitle "Home" (addLink 42 empty_profile))
    as (_ & _ & H & _).
  apply H. intros l [<-|[]]. vm_compute. discriminate.
Defined.

Lemma updateLink_url_witness :
  exists l',
    nth_error (links (updateLink sample_js "42" FieldUrl "https://FB.com/me"
                        (addLink 42 empty_profile))) 0 = Some l' /\
    link_socialIcon l' = socialMediaDetector sample_js "https://FB.com/me".
Proof.
  destruct (updateLink_url sample_js "42" "https://FB.com/me"
              (addLink 42 empty_profile) O _ eq_refl eq_refl)
    as (l' & Hn & _ & Hicon & _).
  exists l'. split; [exact Hn | exact Hicon].
Defined.

Lemma add_then_remove_witness :
  removeLink (decimal 42) (addLink 42 empty_profile) = empty_profile.
Proof.
  destruct (add_then_remove 42 empty_profile) as (_ & _ & H).
  apply H. intros l [].
Defined.

Section SaveFacts.

Variable js : JS.

Lemma getItem_setItem k v st :
  getItem k (setItem k v st) = Some v /\
  forall k', k' <> k -> getItem k' (setItem k v st) = getItem k' st.
Proof.
  unfold setItem. simpl. split.
  - rewrite String.eqb_refl. reflexivity.
  - intros k' Hk. destruct (String.eqb k k') eqn:E; [|reflexivity].
    apply String.eqb_eq in E. congruence.
Qed.

(** With a title that trims to nothing, [saveProfile] stores nothing
    and goes nowhere: it only shows the error. *)
Theorem saveProfile_blank now b :
  trim js (profile_title (profile b)) = EmptyString ->
  localStorage (saveProfile js now b) = localStorage b /\
  navigations (saveProfile js now b) = navigations b /\
  profile (saveProfile js now b) = profile b /\
  notices (saveProfile js now b) =
    notices b ++ [ {| notice_title := "Error";
                      notice_description := "Profile title is required";
                      destructive := true |} ].
Proof.
  intros H. unfold saveProfile. rewrite H. cbn. auto.
Qed.

(** A profile saved under a title is stored under [profile_<id>], the
    other entries of the storage untouched, and the page is sent to
    [/profile/<id>]; the profile page, loading that id, finds the entry and
    shows what the parser makes of it: the saved profile with its id, when
    the parser undoes the serialiser. *)
Theorem save_then_load now b v :
  trim js (profile_title (profile b)) <> EmptyString ->
  let id := decimal now in
  let saved := set_profile_id (Some id) (profile b) in
  let b' := saveProfile js now b in
  JSON_stringify js saved <> EmptyString ->
  getItem ("profile_" ++ id) (localStorage b') = Some (JSON_stringify js saved) /\
  (forall k, k <> ("profile_" ++ id)%string ->
             getItem k (localStorage b') = getItem k (localStorage b)) /\
  navigations b' = navigations b ++ [("/profile/" ++ id)%string] /\
  profile b' = profile b /\
  load_profile js (Some id) (localStorage b') v =
    match JSON_parse js (JSON_stringify js saved) with
    | Some p => Some {| view_profile := Some p; loading := false |}
    | None => None
    end /\
  (JSON_parse js (JSON_stringify js saved) = Some saved ->
   load_profile js (Some id) (localStorage b') v =
     Some {| view_profile := Some saved; loading := false |}).
Proof.
  intros Ht id saved b' Hs.
  assert (Eb : localStorage b' =
               setItem ("profile_" ++ id) (JSON_stringify js saved)
                       (localStorage b)).
  { unfold b', saveProfile. rewrite (truthy_true _ Ht). reflexivity. }
  destruct (getItem_setItem ("profile_" ++ id) (JSON_stringify js saved)
              (localStorage b)) as [Hget Hother].
  assert (Hload : load_profile js (Some id) (localStorage b') v =
                  match JSON_parse js (JSON_stringify js saved) with
                  | Some p => Some {| view_profile := Some p; loading := false |}
                  | None => None
                  end).
  { unfold load_profile. unfold id at 1. rewrite decimal_truthy.
    rewrite Eb, Hget, (truthy_true _ Hs).
    destruct (JSON_parse js (JSON_stringify js saved)); reflexivity. }
  split; [rewrite Eb; exact Hget|].
  split; [intros k Hk; rewrite Eb; apply Hother; exact Hk|].
  split; [unfold b', saveProfile; rewrite (truthy_true _ Ht); reflexivity|].
  split; [unfold b', saveProfile; rewrite (truthy_true _ Ht); reflexivity|].
  split; [exact Hload|].
  intros Hrt. rewrite Hload, Hrt. reflexivity.
Qed.

End SaveFacts.

Lemma saveProfile_blank_witness :
  localStorage (saveProfile sample_js 42
                  {| profile := empty_profile; localStorage := [];
                     notices := []; navigations := [] |}) = [].
Proof.
  destruct (saveProfile_blank sample_js 42
              {| profile := empty_profile; localStorage := [];
                 notices := []; navigations := [] |} eq_refl) as (H & _).
  exact H.
Defined.

Lemma save_then_load_witness :
  let p := set_links [] {| profile_id := None; profile_title := "Shop";
                           profile_description := None; coverPhoto := None;
                           brandLogo := None; links := [] |} in
  let saved := set_profile_id (Some "42") p in
  load_profile (echo_js saved) (Some "42")
    (localStorage (saveProfile (echo_js saved) 42
                     {| profile := p; localStorage := [("other", "x")];
                        notices := []; navigations := [] |}))
    {| view_profile := None; loading := true |}
  = Some {| view_profile := Some saved; loading := false |}.
Proof.
  intros p saved.
  destruct (save_then_load (echo_js saved) 42
              {| profile := p; localStorage := [("other", "x")];
                 notices := []; navigations := [] |}
              {| view_profile := None; loading := true |})
    as (_ & _ & _ & _ & _ & H).
  - discriminate.
  - discriminate.
  - apply H. reflexivity.
Defined.

Section ViewFacts.

Variable js : JS.

(** With no id in the route, or nothing stored under it, the profile
    page stops loading and shows no profile other than the one it had:
    none, on a fresh page. *)
Theorem load_missing id st v :
  id = None \/ id = Some EmptyString \/
  (exists i, id = Some i /\ getItem ("profile_" ++ i) st = None) ->
  load_profile js id st v =
    Some {| view_profile := view_profile v; loading := false |}.
Proof.
  intros [->|[->|(i & -> & H)]]; try reflexivity.
  unfold load_profile. rewrite H. destruct (truthy i); reflexivity.
Qed.

(** The address opened for a link always starts with [http]; an address
    that already does is opened as it is, and formatting twice is
    formatting once. *)
Theorem formattedUrl_http url :
  prefix "http" (formattedUrl url) = true /\
  (prefix "http" url = true -> formattedUrl url = url) /\
  (prefix "http" url = false -> formattedUrl url = ("https://" ++ url)%string) /\
  formattedUrl (formattedUrl url) = formattedUrl url.
Proof.
  assert (H1 : prefix "http" (formattedUrl url) = true).
  { unfold formattedUrl. destruct (prefix "http" url) eqn:E; [exact E|].
    apply (prefix_app "http" ("s://" ++ url)). }
  repeat split.
  - exact H1.
  - intros E. unfold formattedUrl. rewrite E. reflexivity.
  - intros E. unfold formattedUrl. rewrite E. reflexivity.
  - unfold formattedUrl at 1. rewrite H1. reflexivity.
Qed.

End ViewFacts.

Lemma load_missing_witness :
  load_profile sample_js (Some "42") [("profile_7", "{}")]
    {| view_profile := None; loading := true |}
  = Some {| view_profile := None; loading := false |}.
Proof.
  apply (load_missing sample_js (Some "42") [("profile_7", "{}")]).
  right. right. exists "42". split; reflexivity.
Defined.
